(** * Tokenizer Explorer: the alignment-and-interaction engine of [App.jsx]

    A shallow embedding of the React component [App] of
    [frontend/src/App.jsx] and the properties its specification states.

    - [JS]        JavaScript strings (UTF-16 code units), the string
                  builtins the component calls, and the numbers [Number]
                  yields on the strings that reach it.
    - [App]       the component's state variables, the event handlers and
                  the render-time highlight predicate, one definition per
                  source function.
    - [Runtime]   what React and the browser add: effects re-run when their
                  dependencies change, [setTimeout] timers, requests in
                  flight, a millisecond clock.

    - [View]      the tooltip state and its handlers, the token the render
                  hands to a character, the status line. The tooltip feeds
                  no effect, so it is kept beside the state of [App]. *)

From Stdlib Require Import String Ascii ZArith Lia.
From stdpp Require Import base option list numbers.

Local Open Scope Z_scope.

(* ================================================================= *)
(** ** JavaScript values *)

Module JS.

(** A JavaScript string is a sequence of 16-bit code units. *)
Definition jsstring := list N.

(** A string literal of the source, for literals within Latin-1. *)
Definition lit (s : string) : jsstring :=
  map N_of_ascii (list_ascii_of_string s).

(** [\d] of a regular expression without the [u] flag: ASCII digits. *)
Definition isDigit (c : N) : bool := ((48 <=? c) && (c <=? 57))%N.

Definition minus : N := 45.
Definition comma : N := 44.

(** WhiteSpace and LineTerminator of ECMA-262, the code units
    [String.prototype.trim] removes. *)
Definition isWhiteSpace (c : N) : bool :=
  ((c =? 9) || (c =? 10) || (c =? 11) || (c =? 12) || (c =? 13) ||
   (c =? 32) || (c =? 160) || (c =? 5760) ||
   ((8192 <=? c) && (c <=? 8202)) ||
   (c =? 8232) || (c =? 8233) || (c =? 8239) || (c =? 8287) ||
   (c =? 12288) || (c =? 65279))%N.

(** [s.split(sep)] for a one-unit separator: always at least one piece. *)
Fixpoint split (sep : N) (s : jsstring) : list jsstring :=
  match s with
  | [] => [[]]
  | c :: s' =>
      if (c =? sep)%N then [] :: split sep s'
      else match split sep s' with
           | p :: ps => (c :: p) :: ps
           | [] => [[c]]
           end
  end.

Fixpoint trimStart (s : jsstring) : jsstring :=
  match s with
  | c :: s' => if isWhiteSpace c then trimStart s' else s
  | [] => []
  end.

Definition trimEnd (s : jsstring) : jsstring := rev (trimStart (rev s)).

Definition trim (s : jsstring) : jsstring := trimEnd (trimStart s).

(** The numbers that [Number] can yield on a string of digits and minus
    signs: NaN, an infinity, or a finite double whose value is an integer.
    Negative zero is identified with zero: [isNaN], [length] and
    [JSON.stringify], the only observers here, do not tell them apart. *)
Inductive number : Type :=
| NaN
| Infinity (negative : bool)
| Int (z : Z).

Definition isNaN (n : number) : bool :=
  match n with NaN => true | _ => false end.

(** The mathematical value of a sequence of decimal digits. *)
Definition digitsValue (ds : jsstring) : Z :=
  fold_left (fun acc c => 10 * acc + (Z.of_N c - 48)) ds 0.

(** Round a non-negative integer to the nearest IEEE-754 double, ties to
    even: 53 significant bits, overflow to infinity at [2^1024]. *)
Definition roundDouble (m : Z) : option Z :=
  if m <? 2 ^ 53 then Some m
  else
    let e := Z.log2 m - 52 in
    let q := Z.shiftr m e in
    let r := Z.land m (Z.ones e) in
    let half := 2 ^ (e - 1) in
    let q' := if (half <? r) || ((r =? half) && Z.odd q) then q + 1 else q in
    let v := Z.shiftl q' e in
    if 2 ^ 1024 <=? v then None else Some v.

Definition signed (negative : bool) (m : Z) : number :=
  match roundDouble m with
  | Some v => Int (if negative then - v else v)
  | None => Infinity negative
  end.

(** [Number(s)] on the strings the component passes to it. Such a string
    holds digits and minus signs only (see [sanitize_alphabet] below), and
    on that alphabet the StringNumericLiteral grammar accepts exactly an
    optional leading minus followed by one or more digits; the empty string
    converts to zero. *)
Definition Number (s : jsstring) : number :=
  match s with
  | [] => Int 0
  | c :: ds =>
      if (c =? minus)%N then
        match ds with
        | [] => NaN
        | _ => if forallb isDigit ds then signed true (digitsValue ds) else NaN
        end
      else if forallb isDigit s then signed false (digitsValue s) else NaN
  end.

(** A value is truthy as a string when it is not empty. *)
Definition truthy (s : jsstring) : bool :=
  match s with [] => false | _ => true end.

(** [a.findIndex(p)], with [None] for the source's [-1]. *)
Fixpoint findIndex {A : Type} (p : A -> bool) (l : list A) : option nat :=
  match l with
  | [] => None
  | x :: l' => if p x then Some O else S <$> findIndex p l'
  end.

End JS.

Import JS.

(* ================================================================= *)
(** ** The component: state, handlers, render predicates *)

Module App.

Inductive Mode : Type := tokenize | decode.

Inductive StatusKind : Type := ready | progress | error.

(** The status object [{ status, message }]; [kind] is its [status]
    field, renamed apart from the state variable [status]. *)
Record Status : Type := { kind : StatusKind; message : jsstring }.

(** A token of a response. [None] in [tok_start] or [tok_end] is an absent
    positional field ([undefined]). *)
Record Token : Type :=
  { tok_id : Z; tok_text : jsstring; tok_start : option Z; tok_end : option Z }.

(** The [useState] variables of [App], in declaration order. An index is
    [None] for [null]; [visualizedText] is [None] when it holds a value that
    is not a string. *)
Record State : Type :=
  { text : jsstring;
    modelId : jsstring;
    status : option Status;
    tokens : list Token;
    hoveredTokenIndex : option nat;
    hoveredCharIndex : option nat;
    activeTokenIndex : option nat;
    mode : Mode;
    visualizedText : option jsstring }.

#[global] Instance Mode_eq_dec : EqDecision Mode.
Proof. solve_decision. Defined.

#[global] Instance StatusKind_eq_dec : EqDecision StatusKind.
Proof. solve_decision. Defined.

(** The state setters. *)
Definition setText (v : jsstring) (s : State) : State :=
  {| text := v; modelId := modelId s; status := status s; tokens := tokens s;
     hoveredTokenIndex := hoveredTokenIndex s;
     hoveredCharIndex := hoveredCharIndex s;
     activeTokenIndex := activeTokenIndex s; mode := mode s;
     visualizedText := visualizedText s |}.

Definition setModelId (v : jsstring) (s : State) : State :=
  {| text := text s; modelId := v; status := status s; tokens := tokens s;
     hoveredTokenIndex := hoveredTokenIndex s;
     hoveredCharIndex := hoveredCharIndex s;
     activeTokenIndex := activeTokenIndex s; mode := mode s;
     visualizedText := visualizedText s |}.

Definition setStatus (v : option Status) (s : State) : State :=
  {| text := text s; modelId := modelId s; status := v; tokens := tokens s;
     hoveredTokenIndex := hoveredTokenIndex s;
     hoveredCharIndex := hoveredCharIndex s;
     activeTokenIndex := activeTokenIndex s; mode := mode s;
     visualizedText := visualizedText s |}.

Definition setTokens (v : list Token) (s : State) : State :=
  {| text := text s; modelId := modelId s; status := status s; tokens := v;
     hoveredTokenIndex := hoveredTokenIndex s;
     hoveredCharIndex := hoveredCharIndex s;
     activeTokenIndex := activeTokenIndex s; mode := mode s;
     visualizedText := visualizedText s |}.

Definition setHoveredTokenIndex (v : option nat) (s : State) : State :=
  {| text := text s; modelId := modelId s; status := status s;
     tokens := tokens s; hoveredTokenIndex := v;
     hoveredCharIndex := hoveredCharIndex s;
     activeTokenIndex := activeTokenIndex s; mode := mode s;
     visualizedText := visualizedText s |}.

Definition setHoveredCharIndex (v : option nat) (s : State) : State :=
  {| text := text s; modelId := modelId s; status := status s;
     tokens := tokens s; hoveredTokenIndex := hoveredTokenIndex s;
     hoveredCharIndex := v;
     activeTokenIndex := activeTokenIndex s; mode := mode s;
     visualizedText := visualizedText s |}.

Definition setActiveTokenIndex (v : option nat) (s : State) : State :=
  {| text := text s; modelId := modelId s; status := status s;
     tokens := tokens s; hoveredTokenIndex := hoveredTokenIndex s;
     hoveredCharIndex := hoveredCharIndex s;
     activeTokenIndex := v; mode := mode s;
     visualizedText := visualizedText s |}.

Definition setMode (v : Mode) (s : State) : State :=
  {| text := text s; modelId := modelId s; status := status s;
     tokens := tokens s; hoveredTokenIndex := hoveredTokenIndex s;
     hoveredCharIndex := hoveredCharIndex s;
     activeTokenIndex := activeTokenIndex s; mode := v;
     visualizedText := visualizedText s |}.

Definition setVisualizedText (v : option jsstring) (s : State) : State :=
  {| text := text s; modelId := modelId s; status := status s;
     tokens := tokens s; hoveredTokenIndex := hoveredTokenIndex s;
     hoveredCharIndex := hoveredCharIndex s;
     activeTokenIndex := activeTokenIndex s; mode := mode s;
     visualizedText := v |}.

(** The [useState] initial values (lines 6-17). *)
Definition initial : State :=
  {| text := lit "Hello world. This is a test of the tokenizer.";
     modelId := lit "Qwen/Qwen3-0.6B";
     status := None;
     tokens := [];
     hoveredTokenIndex := None;
     hoveredCharIndex := None;
     activeTokenIndex := None;
     mode := tokenize;
     visualizedText := Some [] |}.

Definition modeName (m : Mode) : jsstring :=
  match m with tokenize => lit "tokenize" | decode => lit "decode" end.

(** The template [`Model set to ${id} (Mode: ${mode})`]. *)
Definition modelSetMessage (id : jsstring) (m : Mode) : jsstring :=
  lit "Model set to " ++ id ++ lit " (Mode: " ++ modeName m ++ lit ")".

(** [loadModel] (lines 31-33). *)
Definition loadModel (id : jsstring) (s : State) : State :=
  setStatus (Some {| kind := ready; message := modelSetMessage id (mode s) |}) s.

(** *** The request pipeline: [processInput] (lines 35-96) *)

Inductive Endpoint : Type := api_tokenize | api_decode.

Inductive Body : Type :=
| TextBody (text_ : jsstring) (model_id : jsstring)
| IdsBody (ids : list number) (model_id : jsstring).

Record Request : Type := { url : Endpoint; body : Body }.

(** The parsed body of a successful response. [data_text] is [None] when
    the body has no string [text] field (a tokenize response). *)
Record Data : Type := { data_text : option jsstring; data_tokens : list Token }.

(** How the awaited [fetch] settles, as [processInput] observes it:
    - [Ok]: [response.ok], body parsed;
    - [NotOk]: not [response.ok]; [detail] is the body's [detail] field, a
      string by the interface of the service, [None] when absent;
    - [Rejected]: [fetch] or [response.json()] threw an error with this
      [message] (no connection, a body that is not JSON). *)
Inductive Response : Type :=
| Ok (data : Data)
| NotOk (detail : option jsstring)
| Rejected (message_ : jsstring).

(** Lines 61-65: the ID list of decode mode. [kept] is the complement of
    the character class [[^\d-]]. *)
Definition kept (c : N) : bool := isDigit c || (c =? minus)%N.

Definition sanitize (s : jsstring) : jsstring :=
  trim (List.filter kept s).

Definition parseIds (inputVal : jsstring) : list number :=
  List.filter (fun n => negb (isNaN n))
    (map Number
       (List.filter (fun s => (0 <? length s)%nat)
          (map sanitize (split comma inputVal)))).

(** [processInput(inputVal)] up to its [await fetch]: the state it leaves
    and the request it sends, if any. [modelId] and [mode] are the values
    captured by [useCallback]. *)
Definition processInput (modelId : jsstring) (mode : Mode)
    (inputVal : jsstring) (s : State) : State * option Request :=
  if negb (truthy inputVal) then
    let s1 := setTokens [] s in
    let s2 := setVisualizedText (Some []) s1 in
    let s3 :=
      setStatus
        (match status s2 with
         | None => Some {| kind := ready; message := lit "Ready" |}
         | Some prev =>
             match kind prev with
             | progress | error =>
                 Some {| kind := ready; message := lit "Ready" |}
             | ready => Some prev
             end
         end) s2 in
    (s3, None)
  else
    match mode with
    | decode =>
        let ids := parseIds inputVal in
        if (length ids =? 0)%nat && truthy (trim inputVal) then (s, None)
        else (s, Some {| url := api_decode; body := IdsBody ids modelId |})
    | tokenize =>
        (s, Some {| url := api_tokenize; body := TextBody inputVal modelId |})
    end.

(** The rest of [processInput], run when the [fetch] settles (lines
    80-95). [mode] is still the value captured when the call started. *)
Definition processInput_settled (mode : Mode) (r : Response) (s : State)
    : State :=
  match r with
  | Ok data =>
      let s1 := setTokens (data_tokens data) s in
      match mode with
      | decode => setVisualizedText (data_text data) s1
      | tokenize => s1
      end
  | NotOk detail =>
      let msg :=
        match detail with
        | Some d => if truthy d then d else lit "Failed to process"
        | None => lit "Failed to process"
        end in
      setStatus (Some {| kind := error; message := msg |}) s
  | Rejected msg =>
      setStatus (Some {| kind := error; message := msg |}) s
  end.

(** *** Alignment: which token covers a character (lines 121, 193, 285) *)

(** [a <= b] and [a < b] where one side may be [undefined]: a comparison
    with [undefined] is false. *)
Definition leq (a : option Z) (b : Z) : bool :=
  match a with Some a => a <=? b | None => false end.

Definition lt (a : Z) (b : option Z) : bool :=
  match b with Some b => a <? b | None => false end.

(** The callback [t => t.start <= index && index < t.end]. *)
Definition covers (index : nat) (t : Token) : bool :=
  leq (tok_start t) (Z.of_nat index) && lt (Z.of_nat index) (tok_end t).

(** [tokens.findIndex(t => t.start <= index && index < t.end)]. *)
Definition resolve (tokens : list Token) (index : nat) : option nat :=
  findIndex (covers index) tokens.

(** *** Hover handlers (lines 108-130) *)

Definition handleTokenEnter (index : nat) (s : State) : State :=
  setHoveredTokenIndex (Some index) s.

Definition handleTokenLeave (s : State) : State :=
  setHoveredTokenIndex None s.

Definition handleCharEnter (index : nat) (s : State) : State :=
  let s1 := setHoveredCharIndex (Some index) s in
  match resolve (tokens s) index with
  | Some tokenIndex => setHoveredTokenIndex (Some tokenIndex) s1
  | None => s1
  end.

Definition handleCharLeave (s : State) : State :=
  setHoveredTokenIndex None (setHoveredCharIndex None s).

(** *** Click handlers (lines 168-210) *)

(** The element ids of the render: [`char-${i}`] and [`token-${i}`]. *)
Inductive ElementId : Type :=
| char_ (i : Z)
| token_ (i : nat).

(** The text the character panel renders (line 282). *)
Definition shownText (s : State) : jsstring :=
  match visualizedText s with Some t => t | None => [] end.

(** [document.getElementById(id)] finds an element when the render of [s]
    produced one: a character span per code unit of the shown text, a chip
    per token. *)
Definition getElementById (s : State) (id : ElementId) : bool :=
  match id with
  | char_ i => (0 <=? i) && (i <? Z.of_nat (length (shownText s)))
  | token_ i => (i <? length (tokens s))%nat
  end.

(** [scrollToId]: the elements scrolled into view, none when the id is
    not in the document. *)
Definition scrollToId (s : State) (id : ElementId) : list ElementId :=
  if getElementById s id then [id] else [].

(** The outcome of evaluating JavaScript that may read a property of
    [undefined]: a value, or a thrown [TypeError]. *)
Inductive Completion (A : Type) : Type :=
| Normal (a : A)
| Throw.
Arguments Normal {A} a.
Arguments Throw {A}.

Definition bind {A B : Type} (c : Completion A) (k : A -> Completion B)
    : Completion B :=
  match c with Normal a => k a | Throw => Throw end.

(** [o.f] for an array element [o] that may be [undefined]. *)
Definition prop {A : Type} (f : Token -> A) (o : option Token)
    : Completion A :=
  match o with Some t => Normal (f t) | None => Throw end.

Definition onTokenClick (index : nat) (s : State)
    : Completion (State * list ElementId) :=
  if bool_decide (activeTokenIndex s = Some index) then
    Normal (setHoveredTokenIndex None (setActiveTokenIndex None s), [])
  else
    let s1 := setActiveTokenIndex (Some index) s in
    let token := tokens s !! index in
    if is_Some_dec token then
      (* [token && typeof token.start === 'number'] *)
      bind (prop tok_start token) (fun start =>
        match start with
        | Some n => Normal (s1, scrollToId s (char_ n))
        | None => Normal (s1, [])
        end)
    else Normal (s1, []).

Definition onCharClick (index : nat) (s : State) : State * list ElementId :=
  match resolve (tokens s) index with
  | Some tokenIndex =>
      if bool_decide (activeTokenIndex s = Some tokenIndex) then
        (setHoveredTokenIndex None (setActiveTokenIndex None s), [])
      else
        (setActiveTokenIndex (Some tokenIndex) s,
         scrollToId s (token_ tokenIndex))
  | None => (setActiveTokenIndex None s, [])
  end.

Definition handleContainerClick (s : State) : State :=
  setActiveTokenIndex None s.

(** The mode select's [onChange] (lines 246-253). *)
Definition onModeChange (newMode : Mode) (s : State) : State :=
  let s1 := setMode newMode s in
  let s2 := setTokens [] s1 in
  let s3 := setVisualizedText (Some []) s2 in
  let s4 := setText [] s3 in
  setStatus
    (Some {| kind := ready; message := modelSetMessage (modelId s) newMode |})
    s4.

(** *** Highlight predicates of the render (lines 287-296, 318) *)

(** [i !== null && tokens[i] && index >= tokens[i].start &&
    index < tokens[i].end], evaluated left to right with short-circuit. *)
Definition underToken (i : option nat) (index : nat) (s : State)
    : Completion bool :=
  match i with
  | None => Normal false
  | Some i =>
      let token := tokens s !! i in
      if is_Some_dec token then
        bind (prop tok_start token) (fun start =>
          if leq start (Z.of_nat index) then
            bind (prop tok_end token) (fun end_ =>
              Normal (lt (Z.of_nat index) end_))
          else Normal false)
      else Normal false
  end.

Definition isActive (index : nat) (s : State) : Completion bool :=
  underToken (activeTokenIndex s) index s.

(** [isHighlighted] of a character span: the hovered-token test, then
    [|| isActive]. [isActive] is a [const] computed before it. *)
Definition isHighlighted (index : nat) (s : State) : Completion bool :=
  bind (isActive index s) (fun active =>
    bind (underToken (hoveredTokenIndex s) index s) (fun hovered =>
      Normal (hovered || active))).

(** [isHighlighted] of a token chip (line 318). *)
Definition chipHighlighted (index : nat) (s : State) : bool :=
  bool_decide (hoveredTokenIndex s = Some index)
  || bool_decide (activeTokenIndex s = Some index).

End App.

Import App.

(* ================================================================= *)
(** ** The runtime: effects, timers, requests in flight *)

Module Runtime.

(** A pending [setTimeout] of the debounce effect: when it is due, and the
    [text] and [processInput] (that is [modelId] and [mode]) its callback
    closed over. *)
Record Timer : Type :=
  { timer_id : nat; due : nat;
    cb_text : jsstring; cb_modelId : jsstring; cb_mode : Mode }.

(** A [fetch] awaiting its response; [req_mode] is the [mode] the
    suspended [processInput] closed over. *)
Record Pending : Type := { req_id : nat; request : Request; req_mode : Mode }.

(** The component in its environment. [cleanup] is the timer the debounce
    effect's cleanup function will clear, [calls] every request sent so
    far, oldest first, and [scrolled] every element scrolled into view. *)
Record World : Type :=
  { app : State;
    clock : nat;
    timers : list Timer;
    cleanup : option nat;
    next_timer : nat;
    inflight : list Pending;
    calls : list Request;
    scrolled : list ElementId }.

Definition withApp (s : State) (w : World) : World :=
  {| app := s; clock := clock w; timers := timers w; cleanup := cleanup w;
     next_timer := next_timer w; inflight := inflight w; calls := calls w;
     scrolled := scrolled w |}.

Definition withScrolled (l : list ElementId) (w : World) : World :=
  {| app := app w; clock := clock w; timers := timers w;
     cleanup := cleanup w; next_timer := next_timer w;
     inflight := inflight w; calls := calls w;
     scrolled := scrolled w ++ l |}.

(** The dependency arrays of the two effects that re-run (lines 29, 106);
    [processInput] changes with [modelId] and [mode] (line 96), and
    [status?.status] is [undefined] for a [null] status. *)
Definition depsSync (s : State) : jsstring * Mode := (text s, mode s).

Definition depsDebounce (s : State)
    : jsstring * Mode * jsstring * option StatusKind :=
  (text s, mode s, modelId s, kind <$> status s).

(** The effect of lines 25-29, run with the values of render [r]. *)
Definition syncVisualizedText (r : State) (s : State) : State :=
  match mode r with
  | tokenize => setVisualizedText (Some (text r)) s
  | decode => s
  end.

Definition clearTimeout (id : option nat) (ts : list Timer) : list Timer :=
  match id with
  | Some i => List.filter (fun t => negb (timer_id t =? i)%nat) ts
  | None => ts
  end.

(** The guard of line 100. *)
Definition schedulable (st : option Status) : bool :=
  match kind <$> st with
  | Some ready | Some progress | Some error => true
  | None => false
  end.

(** The debounce effect of lines 99-106, run with the values of render
    [r]: first the cleanup of its previous run, then its body. *)
Definition debounce (r : State) (w : World) : World :=
  let ts := clearTimeout (cleanup w) (timers w) in
  if schedulable (status r) then
    {| app := app w; clock := clock w;
       timers := ts ++ [ {| timer_id := next_timer w;
                            due := clock w + 500;
                            cb_text := text r;
                            cb_modelId := modelId r;
                            cb_mode := mode r |} ];
       cleanup := Some (next_timer w);
       next_timer := S (next_timer w);
       inflight := inflight w; calls := calls w; scrolled := scrolled w |}
  else
    {| app := app w; clock := clock w; timers := ts; cleanup := None;
       next_timer := next_timer w;
       inflight := inflight w; calls := calls w; scrolled := scrolled w |}.

(** After a handler has updated the state from [prev] to [app w], React
    renders and re-runs each effect whose dependencies changed. A world is
    observed once these effects have run; the state the sync effect sets is
    no dependency of either effect, so one pass settles. *)
Definition commit (prev : State) (w : World) : World :=
  let r := app w in
  let w1 :=
    if bool_decide (depsSync r = depsSync prev) then w
    else withApp (syncVisualizedText r (app w)) w in
  if bool_decide (depsDebounce r = depsDebounce prev) then w1
  else debounce r w1.

(** Before the first render. *)
Definition boot : World :=
  {| app := initial; clock := 0; timers := []; cleanup := None;
     next_timer := 0; inflight := []; calls := []; scrolled := [] |}.

(** The first render: every effect runs once, in source order, with the
    values of that render (lines 19-22, 25-29, 99-106); the state they set
    is then rendered in turn. *)
Definition mount (w : World) : World :=
  let r := app w in
  let s1 := loadModel (modelId r) r in
  let s2 := syncVisualizedText r s1 in
  commit r (debounce r (withApp s2 w)).

(** A due timer runs its callback [() => processInput(text)]. *)
Definition fire (t : Timer) (w : World) : World :=
  let '(s', req) :=
    processInput (cb_modelId t) (cb_mode t) (cb_text t) (app w) in
  let sent :=
    match req with
    | Some q => [ {| req_id := length (calls w); request := q;
                     req_mode := cb_mode t |} ]
    | None => []
    end in
  commit (app w)
    {| app := s'; clock := clock w;
       timers :=
         List.filter (fun u => negb (timer_id u =? timer_id t)%nat) (timers w);
       cleanup := cleanup w; next_timer := next_timer w;
       inflight := inflight w ++ sent;
       calls := calls w ++ map request sent;
       scrolled := scrolled w |}.

Fixpoint fireDue (fuel : nat) (w : World) : World :=
  match fuel with
  | O => w
  | S fuel' =>
      match List.find (fun t => (due t <=? clock w)%nat) (timers w) with
      | Some t => fireDue fuel' (fire t w)
      | None => w
      end
  end.

(** One millisecond passes, then every timer that is due runs. *)
Definition tick (w : World) : World :=
  let w1 :=
    {| app := app w; clock := S (clock w); timers := timers w;
       cleanup := cleanup w; next_timer := next_timer w;
       inflight := inflight w; calls := calls w; scrolled := scrolled w |} in
  fireDue (length (timers w1)) w1.

Fixpoint elapse (ms : nat) (w : World) : World :=
  match ms with
  | O => w
  | S ms' => elapse ms' (tick w)
  end.

(** The response to request [k] arrives and the suspended [processInput]
    resumes; nothing happens when [k] is not in flight. *)
Definition settle (k : nat) (r : Response) (w : World) : World :=
  match List.find (fun p => (req_id p =? k)%nat) (inflight w) with
  | Some p =>
      commit (app w)
        {| app := processInput_settled (req_mode p) r (app w);
           clock := clock w; timers := timers w; cleanup := cleanup w;
           next_timer := next_timer w;
           inflight :=
             List.filter (fun q => negb (req_id q =? k)%nat) (inflight w);
           calls := calls w; scrolled := scrolled w |}
  | None => w
  end.

(** A handler that only sets state. *)
Definition handle (f : State -> State) (w : World) : World :=
  commit (app w) (withApp (f (app w)) w).

(** The three inputs of the request pipeline and their [onChange]
    handlers (lines 243, 246-253, 271). *)
Inductive Change : Type :=
| ChangeText (v : jsstring)
| ChangeModelId (v : jsstring)
| ChangeMode (newMode : Mode).

Definition change (c : Change) (w : World) : World :=
  match c with
  | ChangeText v => handle (setText v) w
  | ChangeModelId v => handle (setModelId v) w
  | ChangeMode m => handle (onModeChange m) w
  end.

(** What can happen to the mounted component. A click on the button
    bubbles to the container; the clicks on characters and chips stop
    their propagation. *)
Inductive Event : Type :=
| Input (c : Change)
| ClickLoadModel
| TokenEnter (index : nat)
| TokenLeave
| CharEnter (index : nat)
| CharLeave
| TokenClick (index : nat)
| CharClick (index : nat)
| ContainerClick
| Elapse (ms : nat)
| Settle (k : nat) (r : Response).

Definition step (w : World) (e : Event) : Completion World :=
  match e with
  | Input c => Normal (change c w)
  | ClickLoadModel =>
      Normal (handle (fun s =>
                handleContainerClick (loadModel (modelId s) s)) w)
  | TokenEnter i => Normal (handle (handleTokenEnter i) w)
  | TokenLeave => Normal (handle handleTokenLeave w)
  | CharEnter c => Normal (handle (handleCharEnter c) w)
  | CharLeave => Normal (handle handleCharLeave w)
  | TokenClick i =>
      bind (onTokenClick i (app w)) (fun '(s', l) =>
        Normal (commit (app w) (withScrolled l (withApp s' w))))
  | CharClick c =>
      let '(s', l) := onCharClick c (app w) in
      Normal (commit (app w) (withScrolled l (withApp s' w)))
  | ContainerClick => Normal (handle handleContainerClick w)
  | Elapse ms => Normal (elapse ms w)
  | Settle k r => Normal (settle k r w)
  end.

Fixpoint run (w : World) (es : list Event) : Completion World :=
  match es with
  | [] => Normal w
  | e :: es' => bind (step w e) (fun w' => run w' es')
  end.

(** The worlds the mounted component can be in. *)
Inductive reachable : World -> Prop :=
| reachable_mount : reachable (mount boot)
| reachable_step w e w' :
    reachable w -> step w e = Normal w' -> reachable w'.

End Runtime.

Import Runtime.

(* ================================================================= *)
(** ** Specification-side definitions *)

(** The tokens of the specification's tokenize scenario. *)
Definition example_tokens : list Token :=
  [ {| tok_id := 1; tok_text := lit "Hello";
       tok_start := Some 0; tok_end := Some 5 |};
    {| tok_id := 2; tok_text := lit " world";
       tok_start := Some 5; tok_end := Some 11 |};
    {| tok_id := 3; tok_text := lit ".";
       tok_start := Some 11; tok_end := Some 12 |} ].

(** What one comma-separated piece contributes to the ID list, read off its
    kept characters: digits alone, or one minus sign followed by digits. *)
Definition idOfPiece (p : jsstring) : option number :=
  match List.filter kept p with
  | [] => None
  | c :: rest =>
      if forallb isDigit rest then
        if isDigit c then Some (signed false (digitsValue (c :: rest)))
        else match rest with
             | [] => None
             | _ => Some (signed true (digitsValue rest))
             end
      else None
  end.

(** The parsing policy in the specification's words: strip every character
    that is not a digit or a leading minus sign. A minus sign is leading when
    no character has been kept before it ([seen] is false). *)
Fixpoint stripToLeadingMinus (seen : bool) (s : jsstring) : jsstring :=
  match s with
  | [] => []
  | c :: s' =>
      if isDigit c then c :: stripToLeadingMinus true s'
      else if (c =? minus)%N && negb seen then c :: stripToLeadingMinus true s'
      else stripToLeadingMinus seen s'
  end.

Definition parseIds_spec (inputVal : jsstring) : list number :=
  List.filter (fun n => negb (isNaN n))
    (map Number
       (List.filter (fun s => (0 <? length s)%nat)
          (map (fun p => trim (stripToLeadingMinus false p))
             (split comma inputVal)))).

(** A piece whose kept characters have no minus sign after the first. *)
Definition noInnerMinus (p : jsstring) : bool :=
  match List.filter kept p with
  | [] => true
  | _ :: rest => forallb isDigit rest
  end.

(** The message of a failed request in the specification's words: the
    server's [detail] when there is one, else the generic message. For a
    rejected [fetch] the error's own message. *)
Definition failureMessage (r : Response) : option jsstring :=
  match r with
  | Ok _ => None
  | NotOk (Some (c :: d)) => Some (c :: d)
  | NotOk _ => Some (lit "Failed to process")
  | Rejected m => Some m
  end.

(** An index that names no token of the current list. *)
Definition dangling (i : option nat) (s : State) : Prop :=
  match i with Some i => tokens s !! i = None | None => True end.

(** *** The invariant of the runtime *)

(** Timer [t] closed over the values state [s] holds. *)
Definition current (t : Timer) (s : State) : Prop :=
  cb_text t = text s /\ cb_modelId t = modelId s /\ cb_mode t = mode s.

Record wf (w : World) : Prop :=
  { wf_status : is_Some (status (app w));
    wf_timers :
      forall t, In t (timers w) ->
        cleanup w = Some (timer_id t) /\ current t (app w) /\
        (clock w < due t <= clock w + 500)%nat;
    wf_single : (length (timers w) <= 1)%nat;
    wf_ids : NoDup (map req_id (inflight w));
    wf_issued :
      forall p, In p (inflight w) -> (req_id p < length (calls w))%nat }.

(** In tokenize mode the visualized text is the raw input. *)
Definition synced (s : State) : Prop :=
  mode s = tokenize -> visualizedText s = Some (text s).

(** An event other than the arrival of a successful response to a request
    that was sent in decode mode. *)
Definition notLateDecode (w : World) (e : Event) : Prop :=
  match e with
  | Settle k (Ok _) =>
      forall p, List.find (fun p => (req_id p =? k)%nat) (inflight w) = Some p ->
                req_mode p = tokenize
  | _ => True
  end.

(** A run of events none of which is such an arrival. *)
Fixpoint noLateDecode (w : World) (es : list Event) : Prop :=
  match es with
  | [] => True
  | e :: es' =>
      notLateDecode w e /\
      match step w e with
      | Normal w' => noLateDecode w' es'
      | Throw => True
      end
  end.

(** *** Debounce windows *)

Definition advance (ms : nat) (w : World) : World :=
  {| app := app w; clock := ms + clock w; timers := timers w;
     cleanup := cleanup w; next_timer := next_timer w;
     inflight := inflight w; calls := calls w; scrolled := scrolled w |}.

(** A run of input changes, each followed by a wait of [gap] ms. *)
Fixpoint burst (l : list (Change * nat)) (w : World) : World :=
  match l with
  | [] => w
  | (c, gap) :: l' => burst l' (elapse gap (change c w))
  end.

(** Change [c] alters a dependency of the debounce effect. *)
Definition alters (c : Change) (w : World) : bool :=
  negb (bool_decide (depsDebounce (app (change c w)) = depsDebounce (app w))).

(** Every change of the run alters the input, and the next one follows in
    less than 500 ms. *)
Fixpoint rapid (l : list (Change * nat)) (w : World) : bool :=
  match l with
  | [] => true
  | (c, gap) :: l' =>
      alters c w && (gap <? 500)%nat && rapid l' (elapse gap (change c w))
  end.

(** The request [processInput] sends for the inputs state [s] holds: one, or
    none. *)
Definition requestFor (s : State) : list Request :=
  match snd (processInput (modelId s) (mode s) (text s) s) with
  | Some q => [q]
  | None => []
  end.

(* ================================================================= *)
(** ** Scenarios *)

Definition tokA : Token :=
  {| tok_id := 64; tok_text := lit "a"; tok_start := Some 0; tok_end := Some 1 |}.

Definition tokB : Token :=
  {| tok_id := 370; tok_text := lit "ab"; tok_start := Some 0; tok_end := Some 2 |}.

Definition dataA : Data := {| data_text := None; data_tokens := [tokA] |}.
Definition dataB : Data := {| data_text := None; data_tokens := [tokB] |}.

(** The user types ["a"], pauses, then types ["ab"] and pauses: request 0
    (for ["a"]) and request 1 (for ["ab"]) are both in flight. *)
Definition two_in_flight : World :=
  elapse 500 (change (ChangeText (lit "ab"))
    (elapse 500 (change (ChangeText (lit "a")) (mount boot)))).

Definition pendingA : Pending :=
  {| req_id := 0;
     request := {| url := api_tokenize;
                   body := TextBody (lit "a") (lit "Qwen/Qwen3-0.6B") |};
     req_mode := tokenize |}.

Definition pendingB : Pending :=
  {| req_id := 1;
     request := {| url := api_tokenize;
                   body := TextBody (lit "ab") (lit "Qwen/Qwen3-0.6B") |};
     req_mode := tokenize |}.

(** The stale-response scenario: the response to the newer request arrives
    first, the response to the older one second. *)
Definition stale_trace : list Event :=
  [ Input (ChangeText (lit "a")); Elapse 500;
    Input (ChangeText (lit "ab")); Elapse 500;
    Settle 1 (Ok dataB); Settle 0 (Ok dataA) ].

(** The user clears the textarea. *)
Definition cleared_input : World := change (ChangeText []) (mount boot).

(** A decode request is sent, the user switches back to tokenize mode, and
    the decode response arrives afterwards. *)
Definition late_decode_trace : list Event :=
  [ Input (ChangeMode decode); Input (ChangeText (lit "101, 7592"));
    Elapse 500; Input (ChangeMode tokenize);
    Settle 0 (Ok {| data_text := Some (lit "hello");
                    data_tokens := [tokA] |}) ].

(** A token is hovered and pinned, then the mode is switched: the token
    list is emptied and both indices are left behind. *)
Definition dangling_trace : list Event :=
  [ Input (ChangeText (lit "Hello world.")); Elapse 500;
    Settle 0 (Ok {| data_text := None; data_tokens := example_tokens |});
    TokenEnter 1; TokenClick 1; Input (ChangeMode decode) ].

(** A state showing the scenario tokens with nothing selected. *)
Definition showing_example : State :=
  setVisualizedText (Some (lit "Hello world."))
    (setText (lit "Hello world.") (setTokens example_tokens initial)).

(** A timer of decode mode that closed over the input ["abc,"]. *)
Definition abc_timer : Timer :=
  {| timer_id := 7; due := 500; cb_text := lit "abc,";
     cb_modelId := lit "gpt2"; cb_mode := decode |}.

(* ================================================================= *)
(** ** The view: tooltips, the token of a character, the status line *)

Module View.

(** [index >= a] where [a] may be [undefined]. *)
Definition geq (a : Z) (b : option Z) : bool :=
  match b with Some b => b <=? a | None => false end.

(** Line 285: [tokens.find(t => index >= t.start && index < t.end)], the
    token the render hands to the handlers of character [index]. *)
Definition owns (index : nat) (t : Token) : bool :=
  geq (Z.of_nat index) (tok_start t) && lt (Z.of_nat index) (tok_end t).

Definition tokenOfChar (s : State) (index : nat) : option Token :=
  List.find (owns index) (tokens s).

(** Lines 259-263: the text of the status line, when there is one. *)
Definition statusLine (s : State) : option jsstring :=
  match status s with
  | None => None
  | Some st =>
      Some match kind st with
           | progress => lit "Processing..."
           | _ => message st
           end
  end.

Section Tooltips.

(** Pixel coordinates are numbers of the layout engine; [centre l w] stands
    for [l + w / 2] on them. [numberToString n] stands for the text a
    template literal prints for the Number [n]. *)
Context {num : Type} (centre : num -> num -> num).
Context (numberToString : Z -> jsstring).

(** The fields of [getBoundingClientRect()] the component reads. *)
Record DOMRect : Type :=
  { rect_left : num; rect_top : num; rect_width : num }.

(** The [tooltip] state variable, [{ x, y, content }]. *)
Record Tooltip : Type :=
  { tip_x : num; tip_y : num; tip_content : jsstring }.

(** The component's state with the tooltip beside the rest. *)
Record UI : Type := { core : State; tooltip : option Tooltip }.

Definition onCore (f : State -> State) (ui : UI) : UI :=
  {| core := f (core ui); tooltip := tooltip ui |}.

(** Lines 135-147. [content] is [None] for [null]; [null] and the empty
    string are falsy. *)
Definition handleTooltipEnter (rect : DOMRect) (content : option jsstring)
    (ui : UI) : UI :=
  match content with
  | Some (c :: cs) =>
      {| core := core ui;
         tooltip := Some {| tip_x := centre (rect_left rect) (rect_width rect);
                            tip_y := rect_top rect;
                            tip_content := c :: cs |} |}
  | Some [] | None => ui
  end.

Definition handleTooltipLeave (ui : UI) : UI :=
  {| core := core ui; tooltip := None |}.

(** The combined handlers of lines 150-166. *)
Definition onTokenEnter (rect : DOMRect) (index : nat) (text_ : jsstring)
    (ui : UI) : UI :=
  handleTooltipEnter rect (Some text_) (onCore (handleTokenEnter index) ui).

Definition onTokenLeave (ui : UI) : UI :=
  handleTooltipLeave (onCore handleTokenLeave ui).

Definition onCharEnter (rect : DOMRect) (index : nat) (token : option Token)
    (ui : UI) : UI :=
  handleTooltipEnter rect
    (match token with
     | Some t => Some (lit "ID: " ++ numberToString (tok_id t))
     | None => None
     end)
    (onCore (handleCharEnter index) ui).

Definition onCharLeave (ui : UI) : UI :=
  handleTooltipLeave (onCore handleCharLeave ui).

(** The bindings of the render: a character span passes the token that owns
    it (line 303), a chip passes its token's text (line 325). A chip that is
    not rendered receives no pointer. *)
Definition pointerEntersChar (rect : DOMRect) (index : nat) (ui : UI) : UI :=
  onCharEnter rect index (tokenOfChar (core ui) index) ui.

Definition pointerEntersChip (rect : DOMRect) (index : nat) (ui : UI) : UI :=
  match tokens (core ui) !! index with
  | Some token => onTokenEnter rect index (tok_text token) ui
  | None => ui
  end.

End Tooltips.

End View.

Import View.

(* ================================================================= *)
(** ** Properties of requests and events *)

(** The decimal digits of an integer, after a minus sign when it is
    negative. For a safe integer (magnitude below [2^53]) this is the text
    JavaScript prints for it; beyond, JavaScript prints the shortest digits
    that read back as the same double, so every use below is bounded. *)
Fixpoint digitsOf (fuel : nat) (n : Z) (acc : jsstring) : jsstring :=
  match fuel with
  | O => acc
  | S fuel' =>
      let acc' := Z.to_N (48 + n mod 10) :: acc in
      if n <? 10 then acc' else digitsOf fuel' (n / 10) acc'
  end.

Definition decimal (n : Z) : jsstring :=
  let m := Z.abs n in
  let ds := digitsOf (S (Z.to_nat (Z.log2 m))) m [] in
  if n <? 0 then minus :: ds else ds.

(** The decimal rendering of a list of IDs, separated by [", "], as a user
    copies them from the token panel into the decode input. *)
Fixpoint joinIds (ids : list Z) : jsstring :=
  match ids with
  | [] => []
  | [n] => decimal n
  | n :: ids' => decimal n ++ comma :: 32%N :: joinIds ids'
  end.

(** A separator-free prefix that holds no digit and no minus sign. *)
Definition padding (pre : jsstring) : Prop :=
  forallb (fun c => negb (kept c) && negb (c =? comma)%N) pre = true.

(** Every pending timer of [x] is the one the debounce effect's cleanup
    clears. *)
Definition ownTimers (x : World) : Prop :=
  forall t, In t (timers x) -> cleanup x = Some (timer_id t).

(** [noLateDecode] as a check that runs. *)
Fixpoint noLateDecodeb (w : World) (es : list Event) : bool :=
  match es with
  | [] => true
  | e :: es' =>
      match e with
      | Settle k (Ok _) =>
          match List.find (fun p => (req_id p =? k)%nat) (inflight w) with
          | Some p => bool_decide (req_mode p = tokenize)
          | None => true
          end
      | _ => true
      end
      && match step w e with
         | Normal w' => noLateDecodeb w' es'
         | Throw => true
         end
  end.

(** The endpoint [processInput] calls in a mode. *)
Definition endpointOf (m : Mode) : Endpoint :=
  match m with tokenize => api_tokenize | decode => api_decode end.

(** A request the service's interface admits: a non-empty text for
    [/api/tokenize], a list of numbers for [/api/decode]. *)
Definition wellFormed (q : Request) : Prop :=
  match url q, body q with
  | api_tokenize, TextBody t _ => t <> []
  | api_decode, IdsBody ids _ => Forall (fun n => isNaN n = false) ids
  | _, _ => False
  end.

(** A status that is set and not of kind progress. *)
Definition okStatus (o : option Status) : Prop :=
  exists st, o = Some st /\ kind st <> progress.

Record sound (w : World) : Prop :=
  { sound_status : okStatus (status (app w));
    sound_calls : Forall wellFormed (calls w);
    sound_inflight :
      forall p, In p (inflight w) ->
        calls w !! req_id p = Some (request p) /\
        url (request p) = endpointOf (req_mode p) }.

(** The pointer events: hovering and clicking in the two panels and on the
    background. *)
Definition interaction (e : Event) : bool :=
  match e with
  | TokenEnter _ | TokenLeave | CharEnter _ | CharLeave
  | TokenClick _ | CharClick _ | ContainerClick => true
  | Input _ | ClickLoadModel | Elapse _ | Settle _ _ => false
  end.

(** The part of a world the request pipeline reads and writes. *)
Definition pipeline (w : World)
    : jsstring * jsstring * Mode * option Status * list Token
      * option jsstring * nat * list Timer * list Pending * list Request :=
  (text (app w), modelId (app w), mode (app w), status (app w),
   tokens (app w), visualizedText (app w), clock w, timers w, inflight w,
   calls w).

(** A state with nothing hovered. *)
Definition unhovered (s : State) : Prop :=
  hoveredTokenIndex s = None /\ hoveredCharIndex s = None.

(** *** Further scenarios *)

(** The scenario tokens are shown and token 1 is pinned. *)
Definition pinned_example : World :=
  withApp (setActiveTokenIndex (Some 1%nat) showing_example) (mount boot).

(** Request 0 for ["Hello"] is in flight and the input is at rest. *)
Definition one_in_flight : World :=
  elapse 500 (change (ChangeText (lit "Hello")) (mount boot)).

Definition pendingHello : Pending :=
  {| req_id := 0;
     request := {| url := api_tokenize;
                   body := TextBody (lit "Hello") (lit "Qwen/Qwen3-0.6B") |};
     req_mode := tokenize |}.

(** A tokenize round trip from the mounted component. *)
Definition tokenize_trace : list Event :=
  [ Input (ChangeText (lit "a")); Elapse 500; Settle 0 (Ok dataA);
    CharEnter 0; CharClick 0; Input (ChangeModelId (lit "gpt2")); Elapse 700 ].

(** *** Events inside a debounce window *)

(** The milliseconds an event lets pass. *)
Definition waited (e : Event) : nat :=
  match e with Elapse ms => ms | _ => O end.

Definition elapsed (es : list Event) : nat :=
  fold_right (fun e n => (waited e + n)%nat) O es.

(** A run of events none of which alters a dependency of the debounce
    effect: the raw input, the mode, the model and the kind of status stay
    what they are. *)
Fixpoint steady (w : World) (es : list Event) : bool :=
  match es with
  | [] => true
  | e :: es' =>
      match step w e with
      | Normal w' =>
          bool_decide (depsDebounce (app w') = depsDebounce (app w))
          && steady w' es'
      | Throw => false
      end
  end.

(** The final run of the window: the user switches to decode mode and types
    two IDs. *)
Definition decode_typing : list (Change * nat) :=
  [ (ChangeMode decode, 50%nat) ].

(** While the timer runs, the pointer moves over the panels. *)
Definition pointer_moves : list Event :=
  [ Elapse 100; CharEnter 0; TokenEnter 2; Elapse 399; ContainerClick ].

(** Request 0 is in flight, the user edits the input, and 200 ms later the
    request fails. *)
Definition failure_in_window : World :=
  settle 0 (Rejected (lit "Failed to fetch"))
    (elapse 200 (change (ChangeText (lit "Hello!")) one_in_flight)).

(** Both requests in flight were sent in decode mode. *)
Definition two_decodes_in_flight : World :=
  elapse 500 (change (ChangeText (lit "101, 7"))
    (elapse 500 (change (ChangeText (lit "101"))
      (change (ChangeMode decode) (mount boot))))).

Definition pendingD0 : Pending :=
  {| req_id := 0;
     request := {| url := api_decode;
                   body := IdsBody [Int 101] (lit "Qwen/Qwen3-0.6B") |};
     req_mode := decode |}.

Definition pendingD1 : Pending :=
  {| req_id := 1;
     request := {| url := api_decode;
                   body := IdsBody [Int 101; Int 7] (lit "Qwen/Qwen3-0.6B") |};
     req_mode := decode |}.

Definition helloData : Data :=
  {| data_text := Some (lit "hello"); data_tokens := [tokA] |}.

Definition worldData : Data :=
  {| data_text := Some (lit "hello world"); data_tokens := [tokA; tokB] |}.

(** Decode mode: a first request succeeded and left a text and a token on
    screen, a second one failed and left an error status, and the user has
    just cleared the input. *)
Definition cleared_after_use : World :=
  change (ChangeText [])
    (settle 1 (Rejected (lit "Failed to fetch"))
       (elapse 500 (change (ChangeText (lit "101,"))
          (settle 0 (Ok helloData)
             (elapse 500 (change (ChangeText (lit "101"))
                (change (ChangeMode decode) (mount boot)))))))).

Definition cleared_after_use_timer : Timer :=
  {| timer_id := 5; due := 1500; cb_text := [];
     cb_modelId := lit "Qwen/Qwen3-0.6B"; cb_mode := decode |}.

(* ================================================================= *)
(** ** Alignment *)

Section FindIndex.

Context {A : Type} (p : A -> bool).

Lemma findIndex_Some (l : list A) (i : nat) :
  findIndex p l = Some i <->
  (exists x, l !! i = Some x /\ p x = true) /\
  (forall j y, (j < i)%nat -> l !! j = Some y -> p y = false).
Proof.
  revert i. induction l as [|x l IH]; intros i; simpl.
  - split; [discriminate|]. intros [[y [Hy _]] _]. discriminate.
  - destruct (p x) eqn:Hpx.
    + split.
      * intros [= <-]. split; [exists x; auto|]. intros j y Hj. lia.
      * intros [[y [Hy Hpy]] Hmin]. destruct i as [|i]; [reflexivity|].
        specialize (Hmin O x ltac:(lia) eq_refl). congruence.
    + destruct (findIndex p l) as [k|] eqn:Hf; simpl.
      * split.
        -- intros [= <-]. destruct (proj1 (IH k) eq_refl) as [[y [Hy Hpy]] Hmin].
           split; [exists y; auto|]. intros [|j] z Hj Hz; simpl in Hz.
           ++ congruence.
           ++ apply (Hmin j); [lia|done].
        -- intros [[y [Hy Hpy]] Hmin]. destruct i as [|i]; simpl in Hy.
           { congruence. }
           f_equal. assert (Some k = Some i) as [= ->]; [|done].
           apply IH. split; [eauto|]. intros j z Hj Hz.
           apply (Hmin (S j)); [lia|done].
      * split; [discriminate|]. intros [[y [Hy Hpy]] Hmin].
        destruct i as [|i]; simpl in Hy; [congruence|].
        assert (None = Some i) as Hbad; [|discriminate].
        apply IH. split; [eauto|]. intros j z Hj Hz.
        apply (Hmin (S j)); [lia|done].
Qed.

Lemma findIndex_None (l : list A) :
  findIndex p l = None <-> forall j y, l !! j = Some y -> p y = false.
Proof.
  induction l as [|x l IH]; simpl.
  - split; [|done]. intros _ j y Hy. discriminate.
  - destruct (p x) eqn:Hpx.
    + split; [discriminate|]. intros H. specialize (H O x eq_refl). congruence.
    + destruct (findIndex p l) as [k|] eqn:Hf; simpl.
      * split; [discriminate|]. intros H.
        assert (@None nat = Some k) as Hbad; [|discriminate].
        symmetry. apply IH. intros j y Hy. apply (H (S j)). done.
      * split; [|done]. intros _ [|j] y Hy; simpl in Hy; [congruence|].
        eapply IH; eauto.
Qed.

End FindIndex.

Lemma covers_span (c : nat) (t : Token) :
  covers c t = true <->
  exists s e, tok_start t = Some s /\ tok_end t = Some e /\ s <= Z.of_nat c < e.
Proof.
  unfold covers, leq, lt. destruct (tok_start t) as [s|], (tok_end t) as [e|]; simpl.
  - rewrite andb_true_iff, Z.leb_le, Z.ltb_lt. split.
    + intros [? ?]. exists s, e. auto.
    + intros (s' & e' & [= <-] & [= <-] & ?). lia.
  - split; [rewrite andb_false_r; discriminate|]. intros (s' & e' & _ & ? & _). discriminate.
  - split; [discriminate|]. intros (s' & e' & ? & _). discriminate.
  - split; [discriminate|]. intros (s' & e' & ? & _). discriminate.
Qed.

(** C6. Resolving a character index returns the first token, in list order,
    whose half-open span covers it ([start <= c < end]), and nothing when no
    token covers it. A token that lacks [start] or [end] covers no character,
    so it is passed over. In the specification's scenario, with spans
    [0,5), [5,11), [11,12), character 7 resolves to token 1. *)
Theorem resolve_first_covering (tokens : list Token) (c : nat) :
  (forall i, resolve tokens c = Some i <->
     (exists t, tokens !! i = Some t /\ covers c t = true) /\
     (forall j t, (j < i)%nat -> tokens !! j = Some t -> covers c t = false)) /\
  (resolve tokens c = None <->
     forall j t, tokens !! j = Some t -> covers c t = false) /\
  (forall t, covers c t = true <->
     exists s e, tok_start t = Some s /\ tok_end t = Some e /\
                 s <= Z.of_nat c < e) /\
  resolve example_tokens 7 = Some 1%nat.
Proof.
  split; [|split; [|split]].
  - intros i. apply findIndex_Some.
  - apply findIndex_None.
  - intros t. apply covers_span.
  - reflexivity.
Qed.

(* ================================================================= *)
(** ** Decode-mode parsing *)

Lemma trimStart_id (s : jsstring) :
  forallb (fun c => negb (isWhiteSpace c)) s = true -> trimStart s = s.
Proof.
  destruct s as [|c s]; simpl; [done|].
  intros [Hc _]%andb_true_iff. destruct (isWhiteSpace c); [discriminate|done].
Qed.

Lemma trim_id (s : jsstring) :
  forallb (fun c => negb (isWhiteSpace c)) s = true -> trim s = s.
Proof.
  intros H. unfold trim, trimEnd. rewrite (trimStart_id s H).
  rewrite trimStart_id; [apply rev_involutive|].
  rewrite forallb_forall in *. intros c Hc. apply H. by apply in_rev.
Qed.

Lemma kept_not_whitespace (c : N) : kept c = true -> isWhiteSpace c = false.
Proof.
  unfold kept, isDigit, minus, isWhiteSpace.
  rewrite orb_true_iff, andb_true_iff, !N.leb_le, N.eqb_eq.
  intros H.
  repeat match goal with
         | |- context [(c =? ?k)%N] => destruct (N.eqb_spec c k); [lia|]
         end.
  destruct (N.leb_spec 8192 c); [lia|]. reflexivity.
Qed.

Lemma sanitize_filter (p : jsstring) : sanitize p = List.filter kept p.
Proof.
  unfold sanitize. fold kept. apply trim_id. rewrite forallb_forall.
  intros c [_ Hc]%filter_In. by rewrite kept_not_whitespace.
Qed.

Lemma sanitize_alphabet (p : jsstring) (c : N) :
  In c (sanitize p) -> isDigit c = true \/ c = minus.
Proof.
  rewrite sanitize_filter. intros [_ Hc]%filter_In. unfold kept in Hc.
  apply orb_true_iff in Hc as [?|?%N.eqb_eq]; auto.
Qed.

Lemma isNaN_signed (b : bool) (m : Z) : isNaN (signed b m) = false.
Proof. unfold signed. by destruct (roundDouble m). Qed.

Lemma piece_pipeline (p : jsstring) :
  (if (0 <? length (sanitize p))%nat
   then if negb (isNaN (Number (sanitize p))) then Some (Number (sanitize p)) else None
   else None) = idOfPiece p.
Proof.
  unfold idOfPiece. rewrite sanitize_filter.
  destruct (List.filter kept p) as [|c rest] eqn:Hk; [done|].
  assert (kept c = true) as Hc.
  { assert (In c (List.filter kept p)) as [_ ?]%filter_In; [rewrite Hk; by left|done]. }
  cbn [length Nat.ltb Nat.leb]. unfold Number.
  destruct (N.eqb_spec c minus) as [->|Hne].
  - change (isDigit minus) with false.
    destruct rest as [|d rest']; [by destruct (forallb isDigit [])|].
    destruct (forallb isDigit (d :: rest')); [|done].
    by rewrite isNaN_signed.
  - unfold kept in Hc. apply orb_true_iff in Hc as [Hd|?%N.eqb_eq]; [|done].
    cbn [forallb]. rewrite Hd. cbn [andb].
    destruct (forallb isDigit rest); [|done]. by rewrite isNaN_signed.
Qed.

Lemma parseIds_omap (inputVal : jsstring) :
  parseIds inputVal = omap idOfPiece (split comma inputVal).
Proof.
  unfold parseIds. induction (split comma inputVal) as [|p ps IH]; [done|].
  cbn [map List.filter omap list_omap]. rewrite <- (piece_pipeline p), <- IH.
  destruct (0 <? length (sanitize p))%nat; [|done].
  cbn [map List.filter]. by destruct (isNaN (Number (sanitize p))).
Qed.

Lemma strip_all_digits (seen : bool) (s : jsstring) :
  forallb isDigit (List.filter kept s) = true ->
  stripToLeadingMinus seen s = List.filter kept s.
Proof.
  revert seen. induction s as [|c s IH]; intros seen; [done|].
  cbn [stripToLeadingMinus List.filter].
  assert (kept c = isDigit c || (c =? minus)%N) as -> by done.
  destruct (isDigit c) eqn:Hd; cbn [orb].
  - cbn [forallb]. rewrite Hd. cbn [andb]. intros H. f_equal. by apply IH.
  - destruct (N.eqb_spec c minus) as [->|_].
    + cbn [forallb]. change (isDigit minus) with false. discriminate.
    + cbn [andb]. apply IH.
Qed.

Lemma strip_noInnerMinus (p : jsstring) :
  noInnerMinus p = true -> stripToLeadingMinus false p = List.filter kept p.
Proof.
  unfold noInnerMinus. induction p as [|c p IH]; [done|].
  cbn [stripToLeadingMinus List.filter].
  assert (kept c = isDigit c || (c =? minus)%N) as -> by done.
  destruct (isDigit c) eqn:Hd; cbn [orb].
  - intros H. f_equal. by apply strip_all_digits.
  - destruct (N.eqb_spec c minus) as [->|_]; cbn [andb negb].
    + intros H. f_equal. by apply strip_all_digits.
    + apply IH.
Qed.

(** C3, as stated, fails on ["1-2"]: the code keeps the inner minus sign, so
    the piece converts to NaN and is discarded, where stripping all but a
    leading minus sign would yield 12. *)
Lemma inner_minus_is_kept : parseIds (lit "1-2") = [] /\ parseIds_spec (lit "1-2") = [Int 12].
Proof. split; reflexivity. Qed.

(** C3, amended. The ID list is obtained piece by piece: of each
    comma-separated piece only digits and minus signs are kept (every minus
    sign, wherever it stands); a piece contributes its value when the kept
    characters are digits, optionally after one minus sign, and nothing
    otherwise. The code agrees with the leading-minus policy on every input
    whose pieces hold no minus sign after their first kept character, and
    ["101, 7592, 102}"] yields [101, 7592, 102]. *)
Theorem parseIds_policy (inputVal : jsstring) :
  parseIds inputVal = omap idOfPiece (split comma inputVal) /\
  (forall p c, In c (sanitize p) -> isDigit c = true \/ c = minus) /\
  ((forall p, In p (split comma inputVal) -> noInnerMinus p = true) ->
   parseIds inputVal = parseIds_spec inputVal) /\
  parseIds (lit "101, 7592, 102}") = [Int 101; Int 7592; Int 102].
Proof.
  split; [apply parseIds_omap|]. split; [apply sanitize_alphabet|].
  split; [|reflexivity].
  intros H. unfold parseIds, parseIds_spec. do 3 f_equal.
  apply map_ext_in. intros p Hp.
  rewrite (strip_noInnerMinus p (H p Hp)). reflexivity.
Qed.

(* ================================================================= *)
(** ** The runtime invariant *)

Lemma schedulable_is_Some (st : option Status) :
  schedulable st = true <-> is_Some st.
Proof.
  unfold schedulable. destruct st as [[[] m]|]; simpl; split; done.
Qed.

Lemma clearTimeout_own (c : option nat) (ts : list Timer) :
  (forall t, In t ts -> c = Some (timer_id t)) -> clearTimeout c ts = [].
Proof.
  destruct c as [i|]; simpl.
  - induction ts as [|t ts IH]; intros H; [done|]. simpl.
    assert (timer_id t = i) as -> by (specialize (H t (or_introl eq_refl)); congruence).
    rewrite Nat.eqb_refl. simpl. apply IH. intros u Hu. apply H. by right.
  - destruct ts as [|t ts]; [done|]. intros H.
    by specialize (H t (or_introl eq_refl)).
Qed.

(** What [commit] leaves alone. *)
Lemma commit_frame (prev : State) (w : World) :
  let w' := commit prev w in
  text (app w') = text (app w) /\ modelId (app w') = modelId (app w) /\
  mode (app w') = mode (app w) /\ status (app w') = status (app w) /\
  tokens (app w') = tokens (app w) /\
  hoveredTokenIndex (app w') = hoveredTokenIndex (app w) /\
  hoveredCharIndex (app w') = hoveredCharIndex (app w) /\
  activeTokenIndex (app w') = activeTokenIndex (app w) /\
  clock w' = clock w /\ inflight w' = inflight w /\ calls w' = calls w /\
  scrolled w' = scrolled w.
Proof.
  unfold commit, debounce, syncVisualizedText.
  repeat case_bool_decide; destruct (mode (app w)) eqn:E;
    repeat destruct (schedulable _); simpl; rewrite ?E; repeat split; reflexivity.
Qed.

Lemma commit_visualizedText (prev : State) (w : World) :
  visualizedText (app (commit prev w)) =
  if bool_decide (depsSync (app w) = depsSync prev) then visualizedText (app w)
  else match mode (app w) with
       | tokenize => Some (text (app w))
       | decode => visualizedText (app w)
       end.
Proof.
  unfold commit, debounce, syncVisualizedText.
  repeat case_bool_decide; destruct (mode (app w)) eqn:E;
    repeat destruct (schedulable _); simpl; rewrite ?E; reflexivity.
Qed.

Lemma commit_wf (prev : State) (w : World) :
  is_Some (status (app w)) ->
  (forall t, In t (timers w) ->
     cleanup w = Some (timer_id t) /\ current t prev /\
     (clock w < due t <= clock w + 500)%nat) ->
  (length (timers w) <= 1)%nat ->
  NoDup (map req_id (inflight w)) ->
  (forall p, In p (inflight w) -> (req_id p < length (calls w))%nat) ->
  wf (commit prev w).
Proof.
  intros Hst Hts Hlen Hnd Hiss.
  pose proof (commit_frame prev w) as Hfr. cbv zeta in Hfr.
  destruct Hfr as (Ht & Hm & Hmo & Hs & _ & _ & _ & _ & Hc & Hi & Hca & _).
  split.
  - by rewrite Hs.
  - unfold commit.
    set (w1 := if bool_decide (depsSync (app w) = depsSync prev) then w
               else withApp (syncVisualizedText (app w) (app w)) w).
    assert (timers w1 = timers w /\ cleanup w1 = cleanup w /\
            clock w1 = clock w /\ text (app w1) = text (app w) /\
            modelId (app w1) = modelId (app w) /\ mode (app w1) = mode (app w) /\
            next_timer w1 = next_timer w)
      as (E1 & E2 & E3 & E4 & E5 & E6 & E7).
    { unfold w1, syncVisualizedText. clear w1.
      destruct (bool_decide _); [done|].
      destruct (mode (app w)) eqn:E; simpl; rewrite ?E; done. }
    case_bool_decide as Hdeps.
    + intros t Hin. rewrite E1 in Hin. destruct (Hts t Hin) as (Hcl & Hcur & Hdue).
      rewrite E2, E3. split; [done|]. split; [|done].
      unfold depsDebounce in Hdeps. injection Hdeps as H1 H2 H3 _.
      unfold current in *. rewrite E4, E5, E6. destruct Hcur as (-> & -> & ->).
      done.
    + unfold debounce. apply schedulable_is_Some in Hst. rewrite Hst.
      rewrite E1, E2, clearTimeout_own by (intros t Hin; by apply Hts).
      simpl. intros t [<-|[]]. simpl. rewrite E3.
      split; [by rewrite E7|]. split; [|lia].
      unfold current. simpl. by rewrite E4, E5, E6.
  - unfold commit.
    set (w1 := if bool_decide (depsSync (app w) = depsSync prev) then w
               else withApp (syncVisualizedText (app w) (app w)) w).
    assert (timers w1 = timers w /\ cleanup w1 = cleanup w) as (E1 & E2).
    { unfold w1. clear w1. by destruct (bool_decide _). }
    case_bool_decide; [by rewrite E1|].
    unfold debounce. apply schedulable_is_Some in Hst. rewrite Hst.
    rewrite E1, E2, clearTimeout_own by (intros t Hin; by apply Hts).
    simpl. lia.
  - by rewrite Hi.
  - rewrite Hi, Hca. done.
Qed.
Lemma NoDup_map_filter {A B} (f : A -> B) (p : A -> bool) (l : list A) :
  NoDup (map f l) -> NoDup (map f (List.filter p l)).
Proof.
  induction l as [|x l IH]; simpl; [done|].
  rewrite !list.NoDup_cons. intros [Hx Hl]. destruct (p x); simpl; [|auto].
  rewrite list.NoDup_cons. split; [|auto].
  rewrite list_elem_of_In, in_map_iff in *.
  intros (y & Hy & [Hin _]%filter_In). apply Hx. eauto.
Qed.

Lemma handle_wf (f : State -> State) (w : World) :
  wf w -> is_Some (status (f (app w))) -> wf (handle f w).
Proof.
  intros [Hs Ht Hl Hn Hi] Hf. unfold handle. by apply commit_wf.
Qed.

Lemma processInput_status (m : jsstring) (md : Mode) (v : jsstring) (s : State) :
  is_Some (status s) -> is_Some (status (fst (processInput m md v s))).
Proof.
  intros Hs. unfold processInput. destruct (truthy v); simpl.
  - destruct md; [done|]. by destruct (_ && _).
  - destruct (status s) as [[[] ?]|]; done.
Qed.

Lemma processInput_settled_status (md : Mode) (r : Response) (s : State) :
  is_Some (status s) -> is_Some (status (processInput_settled md r s)).
Proof. intros Hs. destruct r, md; done. Qed.

Lemma singleton_filter_out (t : Timer) (ts : list Timer) :
  In t ts -> (length ts <= 1)%nat ->
  List.filter (fun u => negb (timer_id u =? timer_id t)%nat) ts = [].
Proof.
  destruct ts as [|u [|? ?]]; simpl; [done| |lia].
  intros [->|[]] _. by rewrite Nat.eqb_refl.
Qed.

Lemma fire_wf (t : Timer) (w : World) :
  In t (timers w) -> (length (timers w) <= 1)%nat ->
  is_Some (status (app w)) ->
  NoDup (map req_id (inflight w)) ->
  (forall p, In p (inflight w) -> (req_id p < length (calls w))%nat) ->
  wf (fire t w).
Proof.
  intros Hin Hlen Hs Hn Hi. unfold fire.
  pose proof (processInput_status (cb_modelId t) (cb_mode t) (cb_text t) (app w) Hs)
    as Hs'.
  destruct (processInput _ _ _ _) as [s' req]. simpl in Hs'.
  apply commit_wf; simpl.
  - done.
  - rewrite singleton_filter_out by done. intros ? [].
  - rewrite singleton_filter_out by done. simpl. lia.
  - destruct req as [q|]; simpl; [|by rewrite app_nil_r].
    rewrite map_app. simpl. apply list.NoDup_app. split; [done|].
    split; [|apply list.NoDup_singleton].
    intros k Hk [->|[]%elem_of_nil]%elem_of_cons.
    apply list_elem_of_In, in_map_iff in Hk as (p & Hp & Hpin).
    specialize (Hi p Hpin). lia.
  - intros p [Hp|Hp]%in_app_iff; rewrite length_app.
    + specialize (Hi p Hp). lia.
    + destruct req as [q|]; simpl in *; [|done].
      destruct Hp as [<-|[]]. simpl. lia.
Qed.

Lemma fireDue_idle (n : nat) (w : World) :
  (forall t, In t (timers w) -> (clock w < due t)%nat) -> fireDue n w = w.
Proof.
  intros H. destruct n; simpl; [done|].
  destruct (List.find _ _) as [t|] eqn:Hf; [|done].
  apply find_some in Hf as [Hin Hdue%Nat.leb_le]. specialize (H t Hin). lia.
Qed.

Lemma tick_wf (w : World) : wf w -> wf (tick w).
Proof.
  intros [Hs Ht Hl Hn Hi]. unfold tick.
  destruct (timers w) as [|t [|? ?]] eqn:Hts; simpl in Hl; [| |lia].
  - simpl. split; simpl; try done; try lia.
  - cbn [length timers fireDue List.find clock].
    destruct (Ht t (or_introl eq_refl)) as (Hc & Hcur & Hdue).
    destruct (due t <=? S (clock w))%nat eqn:Hd.
    + apply fire_wf; simpl; try done; try lia; by left.
    + apply Nat.leb_gt in Hd. split; simpl; try done.
      intros u [<-|[]]. split; [done|]. split; [done|]. lia.
Qed.

Lemma elapse_wf (ms : nat) (w : World) : wf w -> wf (elapse ms w).
Proof.
  revert w. induction ms as [|ms IH]; intros w Hw; simpl; [done|].
  by apply IH, tick_wf.
Qed.

Lemma settle_wf (k : nat) (r : Response) (w : World) : wf w -> wf (settle k r w).
Proof.
  intros Hw. pose proof Hw as [Hs Ht Hl Hn Hi]. unfold settle.
  destruct (List.find _ _) as [p|]; [|done].
  apply commit_wf; simpl; try done.
  - by apply processInput_settled_status.
  - by apply NoDup_map_filter.
  - intros q [Hq _]%filter_In. by apply Hi.
Qed.

Lemma onTokenClick_normal (i : nat) (s : State) :
  exists s' l, onTokenClick i s = Normal (s', l) /\
    text s' = text s /\ modelId s' = modelId s /\ mode s' = mode s /\
    status s' = status s /\ tokens s' = tokens s /\
    visualizedText s' = visualizedText s.
Proof.
  unfold onTokenClick. case_bool_decide; [by eexists _, _|].
  destruct (is_Some_dec _) as [[t Ht]|]; [|by eexists _, _].
  rewrite Ht. simpl. destruct (tok_start t); by eexists _, _.
Qed.

Lemma onCharClick_frame (c : nat) (s : State) :
  let s' := fst (onCharClick c s) in
  text s' = text s /\ modelId s' = modelId s /\ mode s' = mode s /\
  status s' = status s /\ tokens s' = tokens s /\
  visualizedText s' = visualizedText s.
Proof.
  unfold onCharClick. destruct (resolve _ _); [|done]. by case_bool_decide.
Qed.

Lemma withScrolled_commit_wf (prev s' : State) (l : list ElementId) (w : World) :
  wf w -> prev = app w -> is_Some (status s') ->
  wf (commit prev (withScrolled l (withApp s' w))).
Proof.
  intros [Hs Ht Hl Hn Hi] -> Hs'. by apply commit_wf.
Qed.

Lemma change_wf (c : Change) (w : World) : wf w -> wf (change c w).
Proof.
  intros Hw. pose proof Hw as [Hs _ _ _ _].
  destruct c; simpl; apply handle_wf; done.
Qed.

Lemma step_wf (w w' : World) (e : Event) :
  wf w -> step w e = Normal w' -> wf w'.
Proof.
  intros Hw. pose proof Hw as [Hs _ _ _ _].
  destruct e; cbn [step]; try (intros [= <-]; try (apply handle_wf; done)).
  - by apply change_wf.
  - apply handle_wf; [done|]. unfold handleCharEnter.
    by destruct (resolve _ _).
  - destruct (onTokenClick_normal index (app w))
      as (s' & l & -> & _ & _ & _ & Hst & _).
    simpl. intros [= <-]. apply withScrolled_commit_wf; try done.
    by rewrite Hst.
  - pose proof (onCharClick_frame index (app w)) as Hfr. cbv zeta in Hfr.
    destruct (onCharClick index (app w)) as [s' l]. simpl in Hfr.
    destruct Hfr as (_ & _ & _ & Hst & _). intros [= <-].
    apply withScrolled_commit_wf; try done. by rewrite Hst.
  - by apply elapse_wf.
  - by apply settle_wf.
Qed.

Lemma mount_wf : wf (mount boot).
Proof.
  unfold mount. apply commit_wf; simpl; try done; try lia; constructor.
Qed.

Lemma reachable_wf (w : World) : reachable w -> wf w.
Proof.
  induction 1 as [|w e w' _ IH Hstep]; [apply mount_wf|].
  by eapply step_wf.
Qed.

(* ================================================================= *)
(** ** Timers and the passage of time *)

Lemma advance_S (ms : nat) (w : World) :
  advance ms (advance 1 w) = advance (S ms) w.
Proof. unfold advance. simpl. f_equal. lia. Qed.

Lemma tick_idle (w : World) :
  (forall t, In t (timers w) -> (S (clock w) < due t)%nat) ->
  tick w = advance 1 w.
Proof. intros H. unfold tick. by rewrite fireDue_idle. Qed.

Lemma elapse_idle (ms : nat) (w : World) :
  (forall t, In t (timers w) -> (ms + clock w < due t)%nat) ->
  elapse ms w = advance ms w.
Proof.
  revert w. induction ms as [|ms IH]; intros w H.
  - by destruct w.
  - simpl. rewrite tick_idle by (intros t Ht; specialize (H t Ht); lia).
    rewrite IH; [apply advance_S|]. simpl. intros t Ht. specialize (H t Ht). lia.
Qed.

Lemma elapse_fire (d : nat) (t : Timer) (w : World) :
  timers w = [t] -> due t = (S d + clock w)%nat ->
  elapse (S d) w = fire t (advance (S d) w).
Proof.
  revert w. induction d as [|d IH]; intros w Hts Hdue.
  - simpl. unfold tick. rewrite Hts. cbn [length fireDue timers clock List.find].
    rewrite Hdue. simpl. rewrite Nat.leb_refl. unfold advance. by rewrite Hts.
  - change (elapse (S (S d)) w) with (elapse (S d) (tick w)).
    rewrite tick_idle by (rewrite Hts; intros ? [<-|[]]; lia).
    rewrite (IH (advance 1 w)); [by rewrite advance_S|done|simpl; lia].
Qed.

Lemma commit_alters (prev : State) (w : World) :
  depsDebounce (app w) <> depsDebounce prev ->
  is_Some (status (app w)) ->
  (forall t, In t (timers w) -> cleanup w = Some (timer_id t)) ->
  timers (commit prev w) =
    [ {| timer_id := next_timer w; due := clock w + 500;
         cb_text := text (app w); cb_modelId := modelId (app w);
         cb_mode := mode (app w) |} ].
Proof.
  intros Hd Hs Hc. unfold commit. rewrite (bool_decide_eq_false_2 _ Hd).
  unfold debounce. apply schedulable_is_Some in Hs. rewrite Hs.
  destruct (bool_decide (depsSync (app w) = depsSync prev)); simpl;
    by rewrite clearTimeout_own.
Qed.

Lemma change_handle (c : Change) (w : World) :
  exists f, change c w = handle f w /\
            (is_Some (status (app w)) -> is_Some (status (f (app w)))).
Proof. destruct c; eexists; (split; [reflexivity|done]). Qed.

Lemma change_alters (c : Change) (w : World) :
  wf w -> alters c w = true ->
  timers (change c w) =
    [ {| timer_id := next_timer w; due := clock w + 500;
         cb_text := text (app (change c w));
         cb_modelId := modelId (app (change c w));
         cb_mode := mode (app (change c w)) |} ] /\
  calls (change c w) = calls w /\ clock (change c w) = clock w /\
  inflight (change c w) = inflight w.
Proof.
  intros [Hs Ht _ _ _] Ha. unfold alters in Ha.
  apply negb_true_iff, bool_decide_eq_false in Ha.
  destruct (change_handle c w) as (f & Hc & Hf). rewrite Hc in *.
  unfold handle in *.
  pose proof (commit_frame (app w) (withApp (f (app w)) w)) as Hfr.
  cbv zeta in Hfr.
  destruct Hfr as (E1 & E2 & E3 & E4 & _ & _ & _ & _ & E5 & E6 & E7 & _).
  rewrite E1, E2, E3, E5, E6, E7. split; [|done].
  pose proof (commit_alters (app w) (withApp (f (app w)) w)) as Hal.
  simpl in Hal. apply Hal.
  - unfold depsDebounce in *. by rewrite E1, E2, E3, E4 in Ha.
  - auto.
  - intros t Hin. by apply Ht.
Qed.

Lemma burst_quiet (l : list (Change * nat)) (w : World) :
  wf w -> rapid l w = true ->
  wf (burst l w) /\ calls (burst l w) = calls w.
Proof.
  revert w. induction l as [|[c gap] l IH]; intros w Hw Hr; [done|].
  simpl in *. apply andb_true_iff in Hr as [[Ha Hg]%andb_true_iff Hr].
  apply Nat.ltb_lt in Hg.
  destruct (change_alters c w Hw Ha) as (Hts & Hca & Hcl & _).
  destruct (IH _ (elapse_wf gap _ (change_wf c w Hw)) Hr) as [Hwf Hcalls].
  split; [done|]. rewrite Hcalls, elapse_idle; [done|].
  rewrite Hts. intros t [<-|[]]. simpl. lia.
Qed.

Lemma fire_calls (t : Timer) (w : World) :
  current t (app w) -> calls (fire t w) = calls w ++ requestFor (app w).
Proof.
  intros (H1 & H2 & H3). unfold fire, requestFor. rewrite H1, H2, H3.
  destruct (processInput _ _ _ _) as [s' [q|]]; simpl;
    pose proof (commit_frame (app w)) as Hfr; cbv zeta in Hfr;
    match goal with |- calls (commit _ ?x) = _ => destruct (Hfr x) as (_&_&_&_&_&_&_&_&_&_&->&_) end;
    done.
Qed.

Lemma requestFor_cases (s : State) :
  requestFor s =
  match text s with
  | [] => []
  | _ =>
      match mode s with
      | tokenize =>
          [ {| url := api_tokenize; body := TextBody (text s) (modelId s) |} ]
      | decode =>
          match parseIds (text s), trim (text s) with
          | [], _ :: _ => []
          | ids, _ =>
              [ {| url := api_decode; body := IdsBody ids (modelId s) |} ]
          end
      end
  end.
Proof.
  unfold requestFor, processInput. destruct (text s) as [|c v] eqn:Ht; [done|].
  cbn [truthy negb]. destruct (mode s); [done|].
  destruct (parseIds (c :: v)) as [|n ids]; [|done].
  by destruct (trim (c :: v)).
Qed.

(* ================================================================= *)
(** ** Visualized text in tokenize mode *)

Lemma commit_synced (prev : State) (w : World) :
  synced (app w) -> synced (app (commit prev w)).
Proof.
  intros H. unfold synced. rewrite commit_visualizedText.
  pose proof (commit_frame prev w) as Hfr. cbv zeta in Hfr.
  destruct Hfr as (-> & _ & -> & _). intros Hm. rewrite Hm.
  by destruct (bool_decide _); [apply H|].
Qed.

Lemma commit_resync (prev : State) (w : World) :
  depsSync (app w) <> depsSync prev -> synced (app (commit prev w)).
Proof.
  intros H. unfold synced. rewrite commit_visualizedText.
  pose proof (commit_frame prev w) as Hfr. cbv zeta in Hfr.
  destruct Hfr as (-> & _ & -> & _). intros Hm. rewrite Hm.
  by rewrite (bool_decide_eq_false_2 _ H).
Qed.

Lemma change_synced (c : Change) (w : World) :
  synced (app w) -> synced (app (change c w)).
Proof.
  intros H. destruct c as [v|v|m]; simpl; unfold handle.
  - destruct (decide (v = text (app w))) as [->|Hne].
    + apply commit_synced. by destruct (app w).
    + apply commit_resync. simpl. unfold depsSync. simpl. congruence.
  - by apply commit_synced.
  - apply commit_synced. done.
Qed.

Lemma fire_synced (t : Timer) (w : World) :
  current t (app w) -> synced (app w) -> synced (app (fire t w)).
Proof.
  intros (Ht & _ & _) H. unfold fire.
  destruct (processInput _ _ _ _) as [s' req] eqn:Hp.
  apply commit_synced. simpl. unfold processInput in Hp. rewrite Ht in Hp.
  destruct (text (app w)) as [|c v] eqn:Htext; simpl in Hp.
  - injection Hp as <- _. unfold synced. simpl. by rewrite Htext.
  - destruct (cb_mode t); [by injection Hp as <- _|].
    destruct (_ && _); by injection Hp as <- _.
Qed.

Lemma tick_synced (w : World) : wf w -> synced (app w) -> synced (app (tick w)).
Proof.
  intros [_ Ht Hl _ _] H. unfold tick.
  destruct (timers w) as [|t [|? ?]] eqn:Hts; simpl in Hl; [done| |lia].
  cbn [length timers fireDue List.find clock].
  destruct (due t <=? S (clock w))%nat; [|done].
  apply fire_synced; simpl; [|done]. apply (Ht t). by left.
Qed.

Lemma elapse_synced (ms : nat) (w : World) :
  wf w -> synced (app w) -> synced (app (elapse ms w)).
Proof.
  revert w. induction ms as [|ms IH]; intros w Hw H; [done|].
  simpl. apply IH; [by apply tick_wf|by apply tick_synced].
Qed.

Lemma step_synced (w w' : World) (e : Event) :
  wf w -> synced (app w) -> notLateDecode w e -> step w e = Normal w' ->
  synced (app w').
Proof.
  intros Hw H Hbenign.
  destruct e; cbn [step];
    try (intros [= <-]; unfold handle; apply commit_synced; done).
  - intros [= <-]. by apply change_synced.
  - intros [= <-]. unfold handle. apply commit_synced. simpl.
    unfold handleCharEnter. by destruct (resolve _ _).
  - destruct (onTokenClick_normal index (app w))
      as (s' & l & -> & Ht & _ & Hm & _ & _ & Hv).
    simpl. intros [= <-]. apply commit_synced. simpl.
    unfold synced. by rewrite Ht, Hm, Hv.
  - pose proof (onCharClick_frame index (app w)) as Hfr. cbv zeta in Hfr.
    destruct (onCharClick index (app w)) as [s' l]. simpl in Hfr.
    destruct Hfr as (Ht & _ & Hm & _ & _ & Hv). intros [= <-].
    apply commit_synced. simpl. unfold synced. by rewrite Ht, Hm, Hv.
  - intros [= <-]. by apply elapse_synced.
  - intros [= <-]. unfold settle.
    destruct (List.find _ _) as [p|] eqn:Hf; [|done].
    apply commit_synced. simpl. destruct r as [d|d|m]; simpl; try done.
    simpl in Hbenign. by rewrite (Hbenign p Hf).
Qed.

(* ================================================================= *)
(** ** Responses: arrival order and failures *)

Lemma find_pending (p : Pending) (l : list Pending) :
  NoDup (map req_id l) -> In p l ->
  List.find (fun q => (req_id q =? req_id p)%nat) l = Some p.
Proof.
  induction l as [|q l IH]; simpl; [done|].
  rewrite list.NoDup_cons. intros [Hq Hl] [->|Hin].
  - by rewrite Nat.eqb_refl.
  - destruct (Nat.eqb_spec (req_id q) (req_id p)) as [E|_]; [|by apply IH].
    exfalso. apply Hq. rewrite E. apply list_elem_of_In, in_map. done.
Qed.

Lemma find_some_pending (p : Pending) (l : list Pending) :
  In p l -> is_Some (List.find (fun q => (req_id q =? req_id p)%nat) l).
Proof.
  induction l as [|q l IH]; simpl; [done|]. intros [->|Hin].
  - by rewrite Nat.eqb_refl.
  - destruct (req_id q =? req_id p)%nat; [done|by apply IH].
Qed.

Lemma settle_app (p : Pending) (r : Response) (w : World) :
  List.find (fun q => (req_id q =? req_id p)%nat) (inflight w) = Some p ->
  let s' := processInput_settled (req_mode p) r (app w) in
  let w' := settle (req_id p) r w in
  tokens (app w') = tokens s' /\ status (app w') = status s' /\
  visualizedText (app w') = visualizedText s' /\
  inflight w' =
    List.filter (fun q => negb (req_id q =? req_id p)%nat) (inflight w).
Proof.
  intros Hf. cbv zeta. unfold settle. rewrite Hf.
  pose proof (commit_frame (app w)) as Hfr. cbv zeta in Hfr.
  match goal with |- context [commit _ ?x] =>
    destruct (Hfr x) as (_ & _ & _ & -> & -> & _ & _ & _ & _ & -> & _);
    rewrite (commit_visualizedText (app w) x) end.
  simpl. split; [done|]. split; [done|]. split; [|done].
  rewrite bool_decide_eq_true_2; [done|].
  unfold depsSync. by destruct r, (req_mode p).
Qed.

(** C1, as stated, fails in the stale-response scenario: request 0 is sent
    before request 1, the response to request 1 arrives first, and the token
    list that remains is the one of request 0. In decode mode the same
    happens to the visualized text: with two decode requests in flight it
    ends as the text of the older request's response. *)
Lemma stale_response_overwrites :
  (exists w, run (mount boot) stale_trace = Normal w /\
     calls w = [request pendingA; request pendingB] /\
     tokens (app w) = data_tokens dataA /\
     tokens (app w) <> data_tokens dataB) /\
  mode (app two_decodes_in_flight) = decode /\
  calls two_decodes_in_flight = [request pendingD0; request pendingD1] /\
  visualizedText
    (app (settle 0 (Ok helloData)
            (settle 1 (Ok worldData) two_decodes_in_flight)))
  = data_text helloData.
Proof.
  split; [eexists; vm_compute; repeat split; discriminate|].
  vm_compute. repeat split.
Qed.

(** C1, amended. Responses are applied in the order they arrive, whatever
    the order the requests were sent in: when requests [a] (older) and [b]
    (newer) are in flight and the response to [b] arrives before the response
    to [a], the token list first becomes that of [b]'s response and then that
    of [a]'s. In decode mode, for a request sent in decode mode, the same
    holds of the visualized text: it ends as the text of [a]'s response. In
    tokenize mode a response to a request sent in tokenize mode leaves the
    visualized text as it was. *)
Theorem responses_apply_in_arrival_order
    (w : World) (a b : Pending) (da db : Data) :
  reachable w -> In a (inflight w) -> In b (inflight w) ->
  (req_id a < req_id b)%nat ->
  let w1 := settle (req_id b) (Ok db) w in
  let w2 := settle (req_id a) (Ok da) w1 in
  tokens (app w1) = data_tokens db /\
  tokens (app w2) = data_tokens da /\
  (mode (app w) = decode -> req_mode a = decode ->
   visualizedText (app w2) = data_text da) /\
  (mode (app w) = tokenize -> req_mode a = tokenize ->
   visualizedText (app w2) = visualizedText (app w1)).
Proof.
  intros Hw%reachable_wf Ha Hb Hlt. cbv zeta.
  pose proof (find_pending b _ (wf_ids w Hw) Hb) as Hfb.
  destruct (settle_app b (Ok db) w Hfb) as (Ht1 & _ & _ & Hi1).
  pose proof (settle_wf (req_id b) (Ok db) w Hw) as Hw1.
  assert (In a (inflight (settle (req_id b) (Ok db) w))) as Ha1.
  { rewrite Hi1. apply filter_In. split; [done|].
    apply negb_true_iff, Nat.eqb_neq. lia. }
  pose proof (find_pending a _ (wf_ids _ Hw1) Ha1) as Hfa.
  destruct (settle_app a (Ok da) _ Hfa) as (Ht2 & _ & Hv2 & _).
  split; [by rewrite Ht1; destruct (req_mode b)|].
  split; [by rewrite Ht2; destruct (req_mode a)|].
  split; intros _ Hm; rewrite Hv2, Hm; done.
Qed.

Lemma two_in_flight_reachable : reachable two_in_flight.
Proof.
  unfold two_in_flight.
  eapply reachable_step with (e := Elapse 500); [|reflexivity].
  eapply reachable_step with (e := Input _); [|reflexivity].
  eapply reachable_step with (e := Elapse 500); [|reflexivity].
  eapply reachable_step with (e := Input _); [|reflexivity].
  apply reachable_mount.
Qed.

Lemma two_decodes_in_flight_reachable : reachable two_decodes_in_flight.
Proof.
  unfold two_decodes_in_flight.
  eapply reachable_step with (e := Elapse 500); [|reflexivity].
  eapply reachable_step with (e := Input _); [|reflexivity].
  eapply reachable_step with (e := Elapse 500); [|reflexivity].
  eapply reachable_step with (e := Input _); [|reflexivity].
  eapply reachable_step with (e := Input _); [|reflexivity].
  apply reachable_mount.
Qed.

Lemma responses_apply_in_arrival_order_witness :
  tokens (app (settle 0 (Ok helloData)
                 (settle 1 (Ok worldData) two_decodes_in_flight)))
    = [tokA] /\
  visualizedText (app (settle 0 (Ok helloData)
                         (settle 1 (Ok worldData) two_decodes_in_flight)))
    = Some (lit "hello").
Proof.
  destruct (responses_apply_in_arrival_order
              two_decodes_in_flight pendingD0 pendingD1 helloData worldData)
    as (_ & H2 & H3 & _).
  - apply two_decodes_in_flight_reachable.
  - vm_compute. left. reflexivity.
  - vm_compute. right. left. reflexivity.
  - simpl. lia.
  - split; [exact H2|]. apply H3; reflexivity.
Defined.

(* ================================================================= *)
(** ** The debounce window *)

(** C2, as stated, fails when the input is empty at the end of the window:
    the user clears the textarea, and neither 500 ms nor five seconds later
    has any external call been sent. It fails as well when a request fails
    inside the window: the input is edited, 200 ms later an earlier request
    fails, and the call for the edited input has not left 500 ms after the
    edit; it leaves 700 ms after it. *)
Lemma cleared_input_sends_nothing :
  calls (elapse 500 cleared_input) = [] /\
  calls (elapse 5000 cleared_input) = [] /\
  timers (elapse 500 cleared_input) = [] /\
  calls (elapse 300 failure_in_window) = calls one_in_flight /\
  calls (elapse 500 failure_in_window)
  = calls one_in_flight
    ++ [ {| url := api_tokenize;
            body := TextBody (lit "Hello!") (lit "Qwen/Qwen3-0.6B") |} ].
Proof. vm_compute. repeat split. Qed.

Lemma commit_keeps (prev : State) (x : World) :
  depsDebounce (app (commit prev x)) = depsDebounce prev ->
  timers (commit prev x) = timers x /\ calls (commit prev x) = calls x /\
  clock (commit prev x) = clock x.
Proof.
  pose proof (commit_frame prev x) as Hfr. cbv zeta in Hfr.
  destruct Hfr as (E1 & E2 & E3 & E4 & _ & _ & _ & _ & E5 & _ & E6 & _).
  unfold depsDebounce at 1. rewrite E1, E2, E3, E4. intros Hd.
  split; [|done]. unfold commit.
  rewrite (bool_decide_eq_true_2 (depsDebounce (app x) = depsDebounce prev))
    by done.
  by destruct (bool_decide _).
Qed.

(** An event other than the passage of time either does nothing or sets
    state and lets the effects run. *)
Lemma step_shape (w w' : World) (e : Event) :
  (forall ms, e <> Elapse ms) -> step w e = Normal w' ->
  w' = w \/
  exists x, w' = commit (app w) x /\ timers x = timers w /\
            calls x = calls w /\ clock x = clock w.
Proof.
  intros He. destruct e; cbn [step];
    try (intros [= <-]; right; by eexists).
  - intros [= <-]. right. destruct c; by eexists.
  - destruct (onTokenClick_normal index (app w)) as (s' & l & -> & _).
    simpl. intros [= <-]. right. by eexists.
  - destruct (onCharClick index (app w)) as [s' l]. intros [= <-].
    right. by eexists.
  - by destruct (He ms).
  - intros [= <-]. unfold settle. destruct (List.find _ _); [|by left].
    right. by eexists.
Qed.

Lemma step_keeps (w w' : World) (e : Event) :
  (forall ms, e <> Elapse ms) -> step w e = Normal w' ->
  depsDebounce (app w') = depsDebounce (app w) ->
  timers w' = timers w /\ calls w' = calls w /\ clock w' = clock w.
Proof.
  intros He Hs Hd. destruct (step_shape w w' e He Hs)
    as [->|(x & -> & E1 & E2 & E3)]; [done|].
  destruct (commit_keeps _ _ Hd) as (-> & -> & ->). done.
Qed.

Lemma step_normal (w : World) (e : Event) : exists w', step w e = Normal w'.
Proof.
  destruct e; cbn [step]; try by eexists.
  - destruct (onTokenClick_normal index (app w)) as (s' & l & -> & _).
    by eexists.
  - destruct (onCharClick index (app w)). by eexists.
Qed.

(** Through a steady run of events that lasts less than the time left, the
    pending timer stays and nothing is sent. *)
Lemma steady_run (es : list Event) (w1 : World) (t : Timer) :
  wf w1 -> timers w1 = [t] -> steady w1 es = true ->
  (elapsed es + clock w1 < due t)%nat ->
  exists w2, run w1 es = Normal w2 /\ wf w2 /\ timers w2 = [t] /\
    clock w2 = (elapsed es + clock w1)%nat /\ calls w2 = calls w1 /\
    depsDebounce (app w2) = depsDebounce (app w1).
Proof.
  revert w1. induction es as [|e es IH]; intros w1 Hw Ht Hs Hd.
  - exists w1. repeat (split; [done|]). done.
  - cbn [steady] in Hs. cbn [elapsed fold_right] in Hd. fold (elapsed es) in Hd.
    destruct (step_normal w1 e) as [w' Hstep]. rewrite Hstep in Hs.
    apply andb_true_iff in Hs as [Hdeps%bool_decide_eq_true Hs].
    assert (timers w' = [t] /\ calls w' = calls w1 /\
            clock w' = (waited e + clock w1)%nat) as (Ht' & Hc' & Hk').
    { assert ((exists ms, e = Elapse ms) \/ (forall ms, e <> Elapse ms))
        as [[ms ->]|Hne] by (destruct e; eauto).
      - cbn [step] in Hstep. injection Hstep as <-. cbn [waited] in *.
        rewrite elapse_idle by (rewrite Ht; intros ? [<-|[]]; lia).
        by rewrite <- Ht.
      - destruct (step_keeps w1 w' e Hne Hstep Hdeps) as (-> & -> & ->).
        assert (waited e = O) as -> by (destruct e; try done; by destruct (Hne ms)).
        done. }
    destruct (IH w' (step_wf w1 w' e Hw Hstep) Ht' Hs ltac:(lia))
      as (w2 & Hrun & Hw2 & Ht2 & Hk2 & Hc2 & Hd2).
    exists w2. cbn [run]. rewrite Hstep. cbn [bind].
    split; [done|]. split; [done|]. split; [done|].
    split; [cbn [elapsed fold_right]; fold (elapsed es); lia|].
    split; congruence.
Qed.

Lemma requestFor_same (s s' : State) :
  depsDebounce s' = depsDebounce s -> requestFor s' = requestFor s.
Proof.
  unfold depsDebounce. intros [= E1 E2 E3 _].
  by rewrite !requestFor_cases, E1, E2, E3.
Qed.

(** C2, amended. After any run of input changes (raw input, mode or model),
    each altering a dependency of the debounce effect and each followed by
    the next in less than 500 ms, exactly one timer is pending; it is due
    500 ms after the last change and holds the inputs as they are then.
    Nothing is sent during the run. Whatever happens next that alters no
    dependency of the effect (time passing, pointer events, successful
    responses) and lasts less than 500 ms in all leaves that timer pending
    and sends nothing; when the 500 ms are over [processInput] runs on those
    inputs and sends exactly one request, [/api/tokenize] with the raw input
    or [/api/decode] with the parsed IDs, except that it sends none when the
    raw input is empty or, in decode mode, is not blank and yields no ID. A
    timer is set only when the status is ready, progress or error. *)
Theorem debounce_window
    (w : World) (l : list (Change * nat)) (c : Change) (es : list Event) :
  reachable w -> rapid l w = true -> alters c (burst l w) = true ->
  let w1 := change c (burst l w) in
  let s1 := app w1 in
  steady w1 es = true -> (elapsed es < 500)%nat ->
  (exists t, timers w1 = [t] /\ due t = (clock w1 + 500)%nat /\
             current t s1) /\
  calls w1 = calls w /\
  (forall d, (d < 500)%nat -> elapse d w1 = advance d w1) /\
  (exists w2, run w1 es = Normal w2 /\ timers w2 = timers w1 /\
     clock w2 = (elapsed es + clock w1)%nat /\ calls w2 = calls w /\
     let sent := calls (elapse (500 - elapsed es) w2) in
     (text s1 = [] -> sent = calls w) /\
     (text s1 <> [] -> mode s1 = tokenize ->
      sent = calls w
             ++ [ {| url := api_tokenize;
                     body := TextBody (text s1) (modelId s1) |} ]) /\
     (text s1 <> [] -> mode s1 = decode ->
      parseIds (text s1) = [] -> trim (text s1) <> [] -> sent = calls w) /\
     (text s1 <> [] -> mode s1 = decode ->
      parseIds (text s1) <> [] \/ trim (text s1) = [] ->
      sent = calls w
             ++ [ {| url := api_decode;
                     body := IdsBody (parseIds (text s1)) (modelId s1) |} ])) /\
  (forall r w0, schedulable (status r) = false ->
     timers (debounce r w0) = clearTimeout (cleanup w0) (timers w0)) /\
  (forall st, schedulable st = true <->
     exists s, st = Some s /\
               (kind s = ready \/ kind s = progress \/ kind s = error)).
Proof.
  intros Hw%reachable_wf Hr Ha. cbv zeta. intros Hsteady Hel.
  destruct (burst_quiet l w Hw Hr) as [Hwb Hcb].
  destruct (change_alters c _ Hwb Ha) as (Hts & Hca & Hcl & _).
  pose proof (change_wf c _ Hwb) as Hw1.
  set (w1 := change c (burst l w)) in *.
  set (t := {| timer_id := next_timer (burst l w);
               due := clock (burst l w) + 500;
               cb_text := text (app w1); cb_modelId := modelId (app w1);
               cb_mode := mode (app w1) |}) in *.
  assert (current t (app w1)) as Hcur by done.
  split; [exists t; by rewrite Hcl|].
  split; [by rewrite Hca|].
  split.
  { intros d Hd. apply elapse_idle. rewrite Hts. intros ? [<-|[]]. simpl. lia. }
  split.
  { destruct (steady_run es w1 t Hw1 Hts Hsteady)
      as (w2 & Hrun & Hw2 & Ht2 & Hk2 & Hc2 & Hd2); [simpl; lia|].
    exists w2. split; [done|]. split; [congruence|]. split; [done|].
    split; [congruence|]. cbv zeta.
    assert (calls (elapse (500 - elapsed es) w2)
            = calls w ++ requestFor (app w1)) as ->.
    { destruct (500 - elapsed es)%nat as [|d] eqn:Hrest; [lia|].
      rewrite (elapse_fire d t) by (done || (rewrite Hk2; simpl; lia)).
      destruct (wf_timers w2 Hw2 t) as (_ & Hcur2 & _);
        [rewrite Ht2; by left|].
      rewrite fire_calls by done. unfold advance. cbn [calls app].
      rewrite (requestFor_same _ _ Hd2). congruence. }
    rewrite requestFor_cases.
    split.
    { intros ->. by rewrite app_nil_r. }
    split.
    { intros Hne ->. by destruct (text (app w1)). }
    split.
    { intros Hne -> -> Hb. destruct (text (app w1)) as [|? ?] eqn:E; [done|].
      destruct (trim _); [done|]. by rewrite app_nil_r. }
    intros Hne -> Hor. destruct (text (app w1)) as [|? ?] eqn:E; [done|].
    destruct Hor as [Hp| ->].
    - by destruct (parseIds _).
    - by destruct (parseIds _). }
  split.
  { intros r w0 Hs. unfold debounce. by rewrite Hs. }
  intros st. split.
  - destruct st as [s|]; [intros _|discriminate].
    exists s. split; [done|]. destruct (kind s); tauto.
  - intros (s & -> & _). unfold schedulable. simpl. by destruct (kind s).
Qed.

Lemma debounce_window_witness :
  exists w2,
    run (change (ChangeText (lit "101, 7592")) (burst decode_typing (mount boot)))
        pointer_moves = Normal w2 /\
    calls w2 = [] /\
    calls (elapse 1 w2)
    = [ {| url := api_decode;
           body := IdsBody [Int 101; Int 7592] (lit "Qwen/Qwen3-0.6B") |} ].
Proof.
  destruct (debounce_window (mount boot) decode_typing
              (ChangeText (lit "101, 7592")) pointer_moves)
    as (_ & _ & _ & (w2 & Hrun & _ & _ & Hc & _ & _ & _ & Hsent) & _).
  - apply reachable_mount.
  - vm_compute. reflexivity.
  - vm_compute. reflexivity.
  - vm_compute. reflexivity.
  - vm_compute. lia.
  - exists w2. split; [exact Hrun|]. split; [exact Hc|].
    apply Hsent.
    + vm_compute. discriminate.
    + vm_compute. reflexivity.
    + left. vm_compute. discriminate.
Defined.

(* ================================================================= *)
(** ** Failed, late and empty requests *)

Lemma settle_failure (w : World) (p : Pending) (r : Response) (msg : jsstring) :
  In p (inflight w) -> failureMessage r = Some msg ->
  let w' := settle (req_id p) r w in
  status (app w') = Some {| kind := error; message := msg |} /\
  tokens (app w') = tokens (app w) /\
  visualizedText (app w') = visualizedText (app w) /\
  calls w' = calls w.
Proof.
  intros Hin Hmsg. cbv zeta. unfold settle.
  destruct (find_some_pending p _ Hin) as [q ->].
  pose proof (commit_frame (app w)) as Hfr. cbv zeta in Hfr.
  match goal with |- context [commit _ ?x] =>
    destruct (Hfr x) as (_ & _ & _ & -> & -> & _ & _ & _ & _ & _ & -> & _);
    rewrite (commit_visualizedText (app w) x) end.
  simpl. rewrite bool_decide_eq_true_2
    by (unfold depsSync; by destruct r, (req_mode q)).
  destruct r as [d|[[|c d]|]|m]; simpl in *; try discriminate;
    injection Hmsg as <-; done.
Qed.

(** C4. When a request in flight fails, whether the server answers with a
    non-success status or the call itself throws, the token list and the
    visualized text are left as they were and no call is sent, and the status
    becomes [error] with the failure's message: the body's [detail] as it is
    when it holds one, ["Failed to process"] when [detail] is absent or
    empty, and the thrown error's own message when the call threw. *)
Theorem failure_sets_error_only (w : World) (p : Pending) :
  In p (inflight w) ->
  (forall r, (forall data, r <> Ok data) ->
     tokens (app (settle (req_id p) r w)) = tokens (app w) /\
     visualizedText (app (settle (req_id p) r w)) = visualizedText (app w) /\
     calls (settle (req_id p) r w) = calls w /\
     exists msg, status (app (settle (req_id p) r w))
                 = Some {| kind := error; message := msg |}) /\
  (forall d, d <> [] ->
     status (app (settle (req_id p) (NotOk (Some d)) w))
     = Some {| kind := error; message := d |}) /\
  status (app (settle (req_id p) (NotOk None) w))
    = Some {| kind := error; message := lit "Failed to process" |} /\
  status (app (settle (req_id p) (NotOk (Some [])) w))
    = Some {| kind := error; message := lit "Failed to process" |} /\
  (forall m,
     status (app (settle (req_id p) (Rejected m) w))
     = Some {| kind := error; message := m |}).
Proof.
  intros Hin. split; [|split; [|split; [|split]]].
  - intros r Hr.
    assert (exists msg, failureMessage r = Some msg) as [msg Hmsg].
    { destruct r as [d|[[|c d]|]|m]; simpl; eauto. by destruct (Hr d). }
    destruct (settle_failure w p r msg Hin Hmsg) as (H1 & H2 & H3 & H4).
    eauto 6.
  - intros [|c d] Hd; [done|].
    by destruct (settle_failure w p (NotOk (Some (c :: d))) (c :: d) Hin eq_refl).
  - by destruct (settle_failure w p (NotOk None) _ Hin eq_refl).
  - by destruct (settle_failure w p (NotOk (Some [])) _ Hin eq_refl).
  - intros m. by destruct (settle_failure w p (Rejected m) _ Hin eq_refl).
Qed.

Lemma failure_sets_error_only_witness :
  status (app (settle 1 (NotOk (Some (lit "Model not found"))) two_in_flight))
    = Some {| kind := error; message := lit "Model not found" |} /\
  tokens (app (settle 1 (Rejected (lit "Failed to fetch")) two_in_flight))
    = [].
Proof.
  destruct (failure_sets_error_only two_in_flight pendingB) as (H1 & H2 & _).
  - vm_compute. right. left. reflexivity.
  - split.
    + apply (H2 (lit "Model not found")). discriminate.
    + apply (H1 (Rejected (lit "Failed to fetch"))). discriminate.
Defined.

(** C5 fails on the code: after the late-decode scenario the component is
    in tokenize mode with an empty raw input, and the visualized text is the
    text of the decode response. *)
Theorem late_decode_response_desyncs :
  exists w, run (mount boot) late_decode_trace = Normal w /\
    mode (app w) = tokenize /\ text (app w) = [] /\
    visualizedText (app w) = Some (lit "hello").
Proof. eexists. vm_compute. repeat split. Qed.

(** Every other event keeps the visualized text equal to the raw input in
    tokenize mode. *)
Lemma synced_unless_late_decode (w : World) (es : list Event) (w' : World) :
  reachable w -> synced (app w) -> noLateDecode w es ->
  run w es = Normal w' -> synced (app w').
Proof.
  intros Hw%reachable_wf. revert w Hw.
  induction es as [|e es IH]; intros w Hw Hs Hes; simpl.
  - by intros [= <-].
  - simpl in Hes. destruct Hes as [He Hes].
    destruct (step w e) as [w1|] eqn:Hstep; simpl; [|done].
    apply IH; [by eapply step_wf|by eapply step_synced|done].
Qed.

Lemma mount_synced : synced (app (mount boot)).
Proof. intros _. reflexivity. Qed.

(** C7. In decode mode an input that is not blank but yields no ID is
    ignored: [processInput] returns at once, sends nothing and sets no state,
    so the token list, the visualized text and the status stay as they were;
    the timer that ran it leaves the world otherwise unchanged. The input
    ["abc,"] is such an input. *)
Theorem unusable_ids_are_ignored (w : World) (t : Timer) :
  cb_mode t = decode -> truthy (trim (cb_text t)) = true ->
  parseIds (cb_text t) = [] ->
  processInput (cb_modelId t) decode (cb_text t) (app w) = (app w, None) /\
  app (fire t w) = app w /\ calls (fire t w) = calls w /\
  inflight (fire t w) = inflight w.
Proof.
  intros Hm Hb Hp.
  assert (processInput (cb_modelId t) decode (cb_text t) (app w) = (app w, None))
    as Hpi.
  { unfold processInput. rewrite Hp, Hb.
    destruct (cb_text t) as [|c v]; [discriminate|done]. }
  split; [done|]. unfold fire. rewrite Hm, Hpi. simpl.
  rewrite !app_nil_r. unfold commit. simpl.
  rewrite !bool_decide_eq_true_2 by done. done.
Qed.

Lemma unusable_ids_are_ignored_witness :
  parseIds (lit "abc,") = [] /\
  app (fire abc_timer two_in_flight) = app two_in_flight /\
  calls (fire abc_timer two_in_flight) = calls two_in_flight.
Proof.
  split; [reflexivity|].
  destruct (unusable_ids_are_ignored two_in_flight abc_timer)
    as (_ & H1 & H2 & _).
  - reflexivity.
  - reflexivity.
  - reflexivity.
  - split; [exact H1|exact H2].
Defined.

(** C8. When the timer that runs at the end of the window closed over an
    empty input, no request is sent; the token list and the visualized text
    are emptied, whatever they held; a status of kind progress or error
    becomes ready with the message ["Ready"], and a ready status is kept with
    its message. (Once mounted the component always has a status, and a
    pending timer always holds the raw input.) *)
Theorem empty_input_clears (w : World) (t : Timer) (prev : Status) :
  cb_text t = [] -> status (app w) = Some prev ->
  let w' := fire t w in
  calls w' = calls w /\ inflight w' = inflight w /\
  tokens (app w') = [] /\ visualizedText (app w') = Some [] /\
  status (app w') =
    Some match kind prev with
         | progress | error => {| kind := ready; message := lit "Ready" |}
         | ready => prev
         end /\
  (reachable w ->
   is_Some (status (app w)) /\ (In t (timers w) -> text (app w) = [])).
Proof.
  intros Ht Hprev. cbv zeta.
  assert (reachable w ->
          is_Some (status (app w)) /\ (In t (timers w) -> text (app w) = []))
    as Hreach.
  { intros Hw%reachable_wf. split; [by apply wf_status|].
    intros Hin. destruct (wf_timers w Hw t Hin) as (_ & (Hcur & _) & _).
    congruence. }
  unfold fire. rewrite Ht. cbn [processInput truthy negb].
  pose proof (commit_frame (app w)) as Hfr. cbv zeta in Hfr.
  match goal with |- context [commit _ ?x] =>
    destruct (Hfr x) as (_ & _ & _ & E1 & E2 & _ & _ & _ & _ & E3 & E4 & _);
    rewrite E1, E2, E3, E4, (commit_visualizedText (app w) x) end.
  simpl. rewrite !app_nil_r.
  rewrite bool_decide_eq_true_2 by done.
  repeat (split; [done|]). split; [|done].
  rewrite Hprev. by destruct (kind prev).
Qed.

Lemma cleared_input_reachable : reachable cleared_input.
Proof.
  unfold cleared_input.
  eapply reachable_step with (e := Input _); [|reflexivity].
  apply reachable_mount.
Qed.

Lemma empty_input_clears_witness :
  tokens (app cleared_after_use) = [tokA] /\
  visualizedText (app cleared_after_use) = Some (lit "hello") /\
  status (app cleared_after_use)
  = Some {| kind := error; message := lit "Failed to fetch" |} /\
  tokens (app (fire cleared_after_use_timer cleared_after_use)) = [] /\
  visualizedText (app (fire cleared_after_use_timer cleared_after_use))
  = Some [] /\
  status (app (fire cleared_after_use_timer cleared_after_use))
  = Some {| kind := ready; message := lit "Ready" |} /\
  calls (fire cleared_after_use_timer cleared_after_use)
  = calls cleared_after_use.
Proof.
  destruct (empty_input_clears cleared_after_use cleared_after_use_timer
              {| kind := error; message := lit "Failed to fetch" |})
    as (H1 & _ & H2 & H3 & H4 & _).
  - reflexivity.
  - vm_compute. reflexivity.
  - split; [vm_compute; reflexivity|]. split; [vm_compute; reflexivity|].
    split; [vm_compute; reflexivity|]. split; [exact H2|].
    split; [exact H3|]. split; [exact H4|exact H1].
Defined.

(* ================================================================= *)
(** ** Selection and highlighting *)

Lemma onTokenClick_select (i : nat) (s : State) :
  activeTokenIndex s <> Some i ->
  exists s' l, onTokenClick i s = Normal (s', l) /\
    activeTokenIndex s' = Some i /\ tokens s' = tokens s /\
    hoveredTokenIndex s' = hoveredTokenIndex s.
Proof.
  intros H. unfold onTokenClick. rewrite (bool_decide_eq_false_2 _ H).
  destruct (is_Some_dec _) as [[t Ht]|]; [|by eexists _, _].
  rewrite Ht. simpl. destruct (tok_start t); by eexists _, _.
Qed.

Lemma onTokenClick_deselect (i : nat) (s : State) :
  activeTokenIndex s = Some i ->
  exists s', onTokenClick i s = Normal (s', []) /\
    activeTokenIndex s' = None /\ hoveredTokenIndex s' = None /\
    tokens s' = tokens s.
Proof.
  intros H. unfold onTokenClick. rewrite (bool_decide_eq_true_2 _ H).
  by eexists.
Qed.

Lemma onCharClick_select (c i : nat) (s : State) :
  resolve (tokens s) c = Some i -> activeTokenIndex s <> Some i ->
  activeTokenIndex (fst (onCharClick c s)) = Some i /\
  tokens (fst (onCharClick c s)) = tokens s /\
  snd (onCharClick c s) = scrollToId s (token_ i).
Proof.
  intros Hr H. unfold onCharClick. rewrite Hr.
  by rewrite (bool_decide_eq_false_2 _ H).
Qed.

Lemma onCharClick_deselect (c i : nat) (s : State) :
  resolve (tokens s) c = Some i -> activeTokenIndex s = Some i ->
  activeTokenIndex (fst (onCharClick c s)) = None /\
  hoveredTokenIndex (fst (onCharClick c s)) = None.
Proof.
  intros Hr H. unfold onCharClick. rewrite Hr.
  by rewrite (bool_decide_eq_true_2 _ H).
Qed.

(** C9. Clicking the chip of token [i], or a character that resolves to
    [i], when [i] is not the active selection makes it the active selection.
    Clicking the chip or such a character again, whichever of the two was
    clicked first, returns the active selection to none and clears the
    hovered token as well. *)
Theorem click_toggles_selection (s : State) (i : nat) :
  activeTokenIndex s <> Some i ->
  (exists s1 l, onTokenClick i s = Normal (s1, l) /\
     activeTokenIndex s1 = Some i /\
     (exists s2, onTokenClick i s1 = Normal (s2, []) /\
        activeTokenIndex s2 = None /\ hoveredTokenIndex s2 = None) /\
     (forall c, resolve (tokens s) c = Some i ->
        activeTokenIndex (fst (onCharClick c s1)) = None /\
        hoveredTokenIndex (fst (onCharClick c s1)) = None)) /\
  (forall c, resolve (tokens s) c = Some i ->
     let s1 := fst (onCharClick c s) in
     activeTokenIndex s1 = Some i /\
     (exists s2, onTokenClick i s1 = Normal (s2, []) /\
        activeTokenIndex s2 = None /\ hoveredTokenIndex s2 = None) /\
     (forall c', resolve (tokens s) c' = Some i ->
        activeTokenIndex (fst (onCharClick c' s1)) = None /\
        hoveredTokenIndex (fst (onCharClick c' s1)) = None)).
Proof.
  intros H. split.
  - destruct (onTokenClick_select i s H) as (s1 & l & Hc & Ha & Ht & _).
    exists s1, l. split; [done|]. split; [done|]. split.
    + destruct (onTokenClick_deselect i s1 Ha) as (s2 & ? & ? & ? & _). eauto.
    + intros c Hr. apply (onCharClick_deselect c i); [by rewrite Ht|done].
  - intros c Hr. cbv zeta.
    destruct (onCharClick_select c i s Hr H) as (Ha & Ht & _).
    split; [done|]. split.
    + destruct (onTokenClick_deselect i _ Ha) as (s2 & ? & ? & ? & _). eauto.
    + intros c' Hr'. apply (onCharClick_deselect c' i); [by rewrite Ht|done].
Qed.

Lemma click_toggles_selection_witness :
  exists s1 l, onTokenClick 1 showing_example = Normal (s1, l) /\
    activeTokenIndex s1 = Some 1%nat /\
    exists s2, onTokenClick 1 s1 = Normal (s2, []) /\
      activeTokenIndex s2 = None /\ hoveredTokenIndex s2 = None.
Proof.
  destruct (click_toggles_selection showing_example 1)
    as [(s1 & l & H1 & H2 & H3 & _) _].
  - simpl. discriminate.
  - exists s1, l. split; [exact H1|]. split; [exact H2|exact H3].
Defined.

Lemma underToken_normal (i : option nat) (c : nat) (s : State) :
  exists b, underToken i c s = Normal b.
Proof.
  unfold underToken. destruct i as [i|]; [|by eexists].
  destruct (is_Some_dec _) as [[t Ht]|]; [|by eexists].
  rewrite Ht. simpl. destruct (leq _ _); by eexists.
Qed.

Lemma underToken_dangling (i : option nat) (c : nat) (s : State) :
  dangling i s -> underToken i c s = Normal false.
Proof.
  unfold dangling, underToken. destruct i as [i|]; [|done].
  intros ->. by destruct (is_Some_dec _) as [[? [=]]|].
Qed.

Lemma step_total (w : World) (e : Event) : exists w', step w e = Normal w'.
Proof.
  destruct e; cbn [step]; try by eexists.
  - destruct (onTokenClick_normal index (app w)) as (s' & l & -> & _).
    by eexists.
  - destruct (onCharClick index (app w)). by eexists.
Qed.

(** C10. Whatever the state, the highlight predicate of a character and the
    click on a chip evaluate without a fault, and so does every event. An
    index that names no token of
    the current list highlights no character: with both indices dangling no
    character is highlighted, with the hovered index dangling the highlight
    is that of the active selection alone. A click on a chip scrolls only
    when the clicked index names a token whose [start] is a number, and then
    to that character. Such a state is reached by hovering and pinning a
    token and then switching the mode. *)
Theorem dangling_indices_are_safe (s : State) :
  (forall c, exists b, isHighlighted c s = Normal b) /\
  (forall c, dangling (hoveredTokenIndex s) s ->
             dangling (activeTokenIndex s) s ->
             isHighlighted c s = Normal false) /\
  (forall c, dangling (hoveredTokenIndex s) s ->
             isHighlighted c s = isActive c s) /\
  (forall c, dangling (activeTokenIndex s) s -> isActive c s = Normal false) /\
  (forall i, exists s' l, onTokenClick i s = Normal (s', l) /\
     (l = [] \/
      exists t n, tokens s !! i = Some t /\ tok_start t = Some n /\
                  l = [char_ n])) /\
  (forall w e, app w = s -> exists w', step w e = Normal w') /\
  (exists w, run (mount boot) dangling_trace = Normal w /\
     tokens (app w) = [] /\
     hoveredTokenIndex (app w) = Some 1%nat /\
     activeTokenIndex (app w) = Some 1%nat).
Proof.
  split; [|split; [|split; [|split; [|split; [|split]]]]].
  - intros c. unfold isHighlighted, isActive.
    destruct (underToken_normal (activeTokenIndex s) c s) as [a ->].
    destruct (underToken_normal (hoveredTokenIndex s) c s) as [h ->].
    by eexists.
  - intros c Hh Ha. unfold isHighlighted, isActive.
    by rewrite !underToken_dangling.
  - intros c Hh. unfold isHighlighted, isActive.
    rewrite (underToken_dangling _ c s Hh).
    by destruct (underToken_normal (activeTokenIndex s) c s) as [a ->].
  - intros c Ha. by apply underToken_dangling.
  - intros i. unfold onTokenClick.
    case_bool_decide; [eexists _, _; split; [done|by left]|].
    destruct (is_Some_dec _) as [[t Ht]|]; [|eexists _, _; split; [done|by left]].
    rewrite Ht. simpl. destruct (tok_start t) as [n|] eqn:Hn;
      [|eexists _, _; split; [done|by left]].
    unfold scrollToId. destruct (getElementById _ _);
      eexists _, _; (split; [done|]); [right; eauto|by left].
  - intros w e _. apply step_total.
  - eexists. vm_compute. repeat split.
Qed.


(* ================================================================= *)
(** ** The two views refer to the same token *)

Lemma owns_covers (c : nat) (t : Token) : owns c t = covers c t.
Proof. unfold owns, covers, geq, leq. by destruct (tok_start t). Qed.

Lemma find_findIndex {A : Type} (p : A -> bool) (l : list A) :
  List.find p l = findIndex p l ≫= (l !!.).
Proof.
  induction l as [|x l IH]; simpl; [done|].
  destruct (p x); [done|]. rewrite IH. by destruct (findIndex p l).
Qed.

Lemma find_agree {A : Type} (p q : A -> bool) (l : list A) :
  (forall x, p x = q x) -> List.find p l = List.find q l.
Proof.
  intros H. induction l as [|x l IH]; simpl; [done|]. by rewrite H, IH.
Qed.

Lemma findIndex_lt {A : Type} (p : A -> bool) (l : list A) (i : nat) :
  findIndex p l = Some i -> (i < length l)%nat.
Proof.
  intros [[x [Hx _]] _]%findIndex_Some. by eapply lookup_lt_Some.
Qed.

(** X1. The token the render hands to a character's handlers (line 285) is
    the token at the index [handleCharEnter] and [onCharClick] resolve for
    that character (lines 121, 193), and there is none exactly when they
    resolve nothing. *)
Theorem tokenOfChar_is_resolved (s : State) (c : nat) :
  tokenOfChar s c = resolve (tokens s) c ≫= (tokens s !!.) /\
  (tokenOfChar s c = None <-> resolve (tokens s) c = None) /\
  (forall i, resolve (tokens s) c = Some i ->
     exists t, tokens s !! i = Some t /\ tokenOfChar s c = Some t /\
               covers c t = true).
Proof.
  assert (tokenOfChar s c = resolve (tokens s) c ≫= (tokens s !!.)) as E.
  { unfold tokenOfChar, resolve. rewrite <- find_findIndex.
    apply find_agree. intros t. apply owns_covers. }
  split; [done|]. split.
  - rewrite E. destruct (resolve (tokens s) c) as [i|] eqn:Hr; simpl; [|done].
    apply findIndex_Some in Hr as [[t [-> _]] _]. done.
  - intros i Hr. rewrite E, Hr. simpl.
    apply findIndex_Some in Hr as [[t [Ht Hc]] _]. eauto.
Qed.

(** X2. A character is highlighted exactly when it lies in the span of the
    token of a highlighted chip: the character panel and the token panel
    always light up the same tokens. *)
Theorem panels_highlight_together (s : State) (c : nat) :
  isHighlighted c s = Normal true <->
  exists i t, chipHighlighted i s = true /\ tokens s !! i = Some t /\
              covers c t = true.
Proof.
  assert (forall o, underToken o c s = Normal true <->
            exists i t, o = Some i /\ tokens s !! i = Some t /\
                        covers c t = true) as Hu.
  { intros [i|]; simpl; [|split; [done|by intros (?&?&?&_)]].
    destruct (is_Some_dec _) as [[t Ht]|Hn].
    - rewrite Ht. simpl. unfold covers. split.
      + intros H. exists i, t. split; [done|]. split; [done|].
        destruct (leq _ _); [by injection H as ->|discriminate].
      + intros (i' & t' & [= <-] & Ht' & H). rewrite Ht in Ht'.
        injection Ht' as <-. unfold covers in H.
        destruct (leq _ _); simpl in *; by rewrite ?H.
    - split; [done|]. intros (i' & t' & [= <-] & Ht & _).
      destruct Hn. by eexists. }
  unfold isHighlighted, isActive.
  destruct (underToken_normal (activeTokenIndex s) c s) as [a Ha].
  destruct (underToken_normal (hoveredTokenIndex s) c s) as [h Hh].
  rewrite Ha, Hh. simpl. unfold chipHighlighted. split.
  - intros [= H]. apply orb_true_iff in H as [-> | ->].
    + apply Hu in Hh as (i & t & Hi & Ht & Hc). exists i, t.
      by rewrite Hi, bool_decide_eq_true_2.
    + apply Hu in Ha as (i & t & Hi & Ht & Hc). exists i, t.
      rewrite Hi, (bool_decide_eq_true_2 (Some i = Some i)) by done.
      by rewrite orb_true_r.
  - intros (i & t & [Hi%bool_decide_eq_true|Hi%bool_decide_eq_true]%orb_true_iff
              & Ht & Hc).
    + assert (underToken (hoveredTokenIndex s) c s = Normal true) as E
        by (apply Hu; eauto). rewrite Hh in E. by injection E as ->.
    + assert (underToken (activeTokenIndex s) c s = Normal true) as E
        by (apply Hu; eauto). rewrite Ha in E. injection E as ->.
      by rewrite orb_true_r.
Qed.

(** X3. A click on a character that selects a token always scrolls the token
    panel to that token's chip: the index a character resolves to is within
    the token list, so the chip is in the document. *)
Theorem char_click_scrolls_to_chip (s : State) (c i : nat) :
  resolve (tokens s) c = Some i -> activeTokenIndex s <> Some i ->
  (i < length (tokens s))%nat /\
  onCharClick c s = (setActiveTokenIndex (Some i) s, [token_ i]).
Proof.
  intros Hr Ha. pose proof (findIndex_lt _ _ _ Hr) as Hlt. split; [done|].
  unfold onCharClick. rewrite Hr, (bool_decide_eq_false_2 _ Ha).
  unfold scrollToId, getElementById.
  by rewrite (proj2 (Nat.ltb_lt _ _) Hlt).
Qed.

Lemma char_click_scrolls_to_chip_witness :
  onCharClick 7 showing_example
  = (setActiveTokenIndex (Some 1%nat) showing_example, [token_ 1]).
Proof.
  apply (char_click_scrolls_to_chip showing_example 7 1).
  - reflexivity.
  - simpl. discriminate.
Defined.

(* ================================================================= *)
(** ** Tooltips and hovering *)

Section TooltipFacts.

Context {num : Type} (centre : num -> num -> num).
Context (numberToString : Z -> jsstring).

Implicit Types (rect : @DOMRect num) (ui : @UI num).

(** X4. When the pointer enters a character, the tooltip shows ["ID: "]
    followed by the text JavaScript prints for the ID of exactly the token
    that becomes the hovered token, anchored at the character; over a
    character no token covers, the tooltip and the hovered token are left as
    they were and only the hovered character is set. The active selection is
    never changed. *)
Theorem char_tooltip_names_hovered_token rect (c : nat) ui :
  let ui' := pointerEntersChar centre numberToString rect c ui in
  hoveredCharIndex (core ui') = Some c /\
  activeTokenIndex (core ui') = activeTokenIndex (core ui) /\
  match resolve (tokens (core ui)) c with
  | Some i =>
      hoveredTokenIndex (core ui') = Some i /\
      exists t, tokens (core ui) !! i = Some t /\
        tooltip ui' =
          Some {| tip_x := centre (rect_left rect) (rect_width rect);
                  tip_y := rect_top rect;
                  tip_content := lit "ID: " ++ numberToString (tok_id t) |}
  | None =>
      hoveredTokenIndex (core ui') = hoveredTokenIndex (core ui) /\
      tooltip ui' = tooltip ui
  end.
Proof.
  cbv zeta. unfold pointerEntersChar, onCharEnter.
  destruct (tokenOfChar_is_resolved (core ui) c) as (E & _ & Hsome).
  destruct (resolve (tokens (core ui)) c) as [i|] eqn:Hr.
  - destruct (Hsome i eq_refl) as (t & Ht & Hf & _). rewrite Hf.
    cbn. unfold handleCharEnter. rewrite Hr. cbn. eauto 6.
  - rewrite E. cbn. unfold handleCharEnter. rewrite Hr. done.
Qed.

(** X5. Hovering is transient: when nothing is hovered and no tooltip is
    shown, entering a character or a chip and leaving it again restores the
    state exactly, whether or not a token covers the character and whether or
    not the chip's text is empty. *)
Theorem hover_is_transient rect (c i : nat) ui :
  unhovered (core ui) -> tooltip ui = None ->
  onCharLeave (pointerEntersChar centre numberToString rect c ui) = ui /\
  onTokenLeave (pointerEntersChip centre rect i ui) = ui.
Proof.
  destruct ui as [s tip]. destruct s. unfold unhovered. simpl.
  intros [-> ->] ->. split.
  - unfold pointerEntersChar, onCharEnter, onCharLeave, handleTooltipEnter,
      handleTooltipLeave, onCore, handleCharLeave, handleCharEnter.
    cbn [core tooltip tokens].
    destruct (tokenOfChar _ _); destruct (resolve _ _); reflexivity.
  - unfold pointerEntersChip, onTokenEnter, onTokenLeave, handleTooltipEnter.
    cbn. destruct (_ !! _) as [t|]; [|done]. by destruct (tok_text t).
Qed.

End TooltipFacts.

Lemma hover_is_transient_witness :
  onCharLeave
    (pointerEntersChar (fun l w => l + w / 2) decimal
       {| rect_left := 40; rect_top := 12; rect_width := 8 |} 7
       {| core := showing_example; tooltip := None |})
  = {| core := showing_example; tooltip := None |}.
Proof.
  apply (hover_is_transient (fun l w => l + w / 2) decimal
           {| rect_left := 40; rect_top := 12; rect_width := 8 |} 7 1
           {| core := showing_example; tooltip := None |}).
  - split; reflexivity.
  - reflexivity.
Defined.

(* ================================================================= *)
(** ** What the component sends, and the status it shows *)

Lemma sound_commit (prev : State) (w w0 : World) :
  okStatus (status (app w)) -> calls w = calls w0 ->
  (forall p, In p (inflight w) -> In p (inflight w0)) ->
  sound w0 -> sound (commit prev w).
Proof.
  intros Hs Hc Hi [_ Hcalls Hin].
  pose proof (commit_frame prev w) as Hfr. cbv zeta in Hfr.
  destruct Hfr as (_ & _ & _ & E1 & _ & _ & _ & _ & _ & E2 & E3 & _).
  split.
  - by rewrite E1.
  - by rewrite E3, Hc.
  - intros p Hp. rewrite E2 in Hp. rewrite E3, Hc. by apply Hin, Hi.
Qed.

Lemma processInput_okStatus (m : jsstring) (md : Mode) (v : jsstring) (s : State) :
  okStatus (status s) -> okStatus (status (fst (processInput m md v s))).
Proof.
  intros (st & Hst & Hk). unfold processInput. destruct (truthy v); simpl.
  - destruct md; [by exists st|]. destruct (_ && _); by exists st.
  - rewrite Hst. destruct (kind st) eqn:Hkind; eexists; (split; [done|]);
      simpl; congruence.
Qed.

Lemma processInput_settled_okStatus (md : Mode) (r : Response) (s : State) :
  okStatus (status s) -> okStatus (status (processInput_settled md r s)).
Proof.
  intros Hs. destruct r as [d|d|m]; simpl.
  - by destruct md.
  - eexists. split; [done|]. done.
  - eexists. split; [done|]. done.
Qed.

Lemma processInput_request (m : jsstring) (md : Mode) (v : jsstring)
    (s : State) (q : Request) :
  snd (processInput m md v s) = Some q ->
  wellFormed q /\ url q = endpointOf md.
Proof.
  unfold processInput. destruct v as [|c v]; [done|]. cbn [truthy negb].
  destruct md.
  - intros [= <-]. by split.
  - destruct (_ && _); [done|]. intros [= <-]. split; [|done].
    unfold wellFormed, parseIds. cbn [url body]. apply Forall_forall.
    intros n [_ Hn]%filter_In. by apply negb_true_iff.
Qed.

Lemma sound_fire (t : Timer) (w : World) : sound w -> sound (fire t w).
Proof.
  intros [Hs Hcalls Hin]. unfold fire.
  pose proof (processInput_okStatus (cb_modelId t) (cb_mode t) (cb_text t)
                (app w) Hs) as Hs'.
  pose proof (processInput_request (cb_modelId t) (cb_mode t) (cb_text t)
                (app w)) as Hq.
  destruct (processInput _ _ _ _) as [s' req]. simpl in Hs', Hq.
  pose proof (commit_frame (app w)) as Hfr. cbv zeta in Hfr.
  match goal with |- sound (commit _ ?x) =>
    destruct (Hfr x) as (_ & _ & _ & E1 & _ & _ & _ & _ & _ & E2 & E3 & _) end.
  simpl in E1, E2, E3. split.
  - by rewrite E1.
  - rewrite E3. apply Forall_app. split; [done|].
    destruct req as [q|]; simpl; [|done].
    apply Forall_singleton. by apply Hq.
  - intros p. rewrite E2, E3. intros [Hp|Hp]%in_app_iff.
    + destruct (Hin p Hp) as [Hl Hu]. split; [|done].
      by apply lookup_app_l_Some.
    + destruct req as [q|]; simpl in Hp; [|done]. destruct Hp as [<-|[]].
      simpl. split; [|by apply Hq].
      rewrite lookup_app_r by done. by rewrite Nat.sub_diag.
Qed.

Lemma sound_tick (w : World) : sound w -> sound (tick w).
Proof.
  intros Hw. unfold tick.
  set (w1 := {| app := app w; clock := S (clock w); timers := timers w;
                cleanup := cleanup w; next_timer := next_timer w;
                inflight := inflight w; calls := calls w;
                scrolled := scrolled w |}).
  assert (sound w1) as Hw1 by (destruct Hw; by split).
  clearbody w1. clear Hw w.
  induction (length (timers w1)) as [|n IH] in w1, Hw1 |- *; simpl; [done|].
  destruct (List.find _ _); [|done]. by apply IH, sound_fire.
Qed.

Lemma sound_elapse (ms : nat) (w : World) : sound w -> sound (elapse ms w).
Proof.
  revert w. induction ms as [|ms IH]; intros w Hw; simpl; [done|].
  by apply IH, sound_tick.
Qed.

Lemma sound_handle (f : State -> State) (w : World) :
  sound w -> status (f (app w)) = status (app w) -> sound (handle f w).
Proof.
  intros Hw Hf. unfold handle. apply (sound_commit _ _ w); try done.
  simpl. rewrite Hf. by destruct Hw.
Qed.

Lemma sound_step (w w' : World) (e : Event) :
  sound w -> step w e = Normal w' -> sound w'.
Proof.
  intros Hw. destruct e; cbn [step];
    try (intros [= <-]; apply sound_handle; done).
  - intros [= <-]. destruct c; simpl; try (by apply sound_handle).
    unfold handle. apply (sound_commit _ _ w); try done.
    simpl. eexists. split; [done|]. done.
  - intros [= <-]. unfold handle. apply (sound_commit _ _ w); try done.
    simpl. eexists. split; [done|]. done.
  - intros [= <-]. apply sound_handle; [done|]. unfold handleCharEnter.
    by destruct (resolve _ _).
  - destruct (onTokenClick_normal index (app w))
      as (s' & l & -> & _ & _ & _ & Hst & _).
    simpl. intros [= <-]. apply (sound_commit _ _ w); try done.
    simpl. rewrite Hst. by destruct Hw.
  - pose proof (onCharClick_frame index (app w)) as Hfr. cbv zeta in Hfr.
    destruct (onCharClick index (app w)) as [s' l]. simpl in Hfr.
    destruct Hfr as (_ & _ & _ & Hst & _). intros [= <-].
    apply (sound_commit _ _ w); try done. simpl. rewrite Hst. by destruct Hw.
  - intros [= <-]. by apply sound_elapse.
  - intros [= <-]. unfold settle. destruct (List.find _ _) as [p|]; [|done].
    apply (sound_commit _ _ w); simpl; try done.
    + apply processInput_settled_okStatus. by destruct Hw.
    + by intros q [Hq _]%filter_In.
Qed.

Lemma reachable_sound (w : World) : reachable w -> sound w.
Proof.
  induction 1 as [|w e w' _ IH Hstep]; [|by eapply sound_step].
  split; simpl.
  - eexists. split; [reflexivity|done].
  - constructor.
  - intros p [].
Qed.

(** X6. Every request the component has sent fits the interface of the
    service: a tokenize request carries a non-empty text, a decode request a
    list of numbers without NaN, and the endpoint matches the body. Every
    request in flight is the logged request of its number, sent to the
    endpoint of the mode its continuation closed over. *)
Theorem requests_are_well_formed (w : World) :
  reachable w ->
  Forall wellFormed (calls w) /\
  (forall p, In p (inflight w) ->
     calls w !! req_id p = Some (request p) /\
     url (request p) = endpointOf (req_mode p)).
Proof. intros [_ H1 H2]%reachable_sound. by split. Qed.

Lemma requests_are_well_formed_witness :
  Forall wellFormed (calls two_in_flight).
Proof.
  apply (requests_are_well_formed two_in_flight).
  apply two_in_flight_reachable.
Defined.

(** X7. The status is never [null] once the component is mounted and never
    of kind progress, so the status line is always shown and always shows the
    stored message, never ["Processing..."]. *)
Theorem progress_is_never_shown (w : World) :
  reachable w ->
  exists st, status (app w) = Some st /\
    (kind st = ready \/ kind st = error) /\
    statusLine (app w) = Some (message st).
Proof.
  intros [(st & Hst & Hk) _ _]%reachable_sound. exists st.
  split; [done|]. unfold statusLine. rewrite Hst.
  destruct (kind st); try done; split; auto.
Qed.

Lemma progress_is_never_shown_witness :
  exists st, status (app two_in_flight) = Some st /\
    (kind st = ready \/ kind st = error) /\
    statusLine (app two_in_flight) = Some (message st).
Proof.
  apply (progress_is_never_shown two_in_flight).
  apply two_in_flight_reachable.
Defined.

(* ================================================================= *)
(** ** Shown IDs parse back *)

Lemma digitsValue_snoc (ds : jsstring) (d : N) :
  digitsValue (ds ++ [d]) = 10 * digitsValue ds + (Z.of_N d - 48).
Proof. unfold digitsValue. by rewrite fold_left_app. Qed.

Lemma digit_of_mod (n : Z) :
  0 <= n ->
  isDigit (Z.to_N (48 + n mod 10)) = true /\
  Z.of_N (Z.to_N (48 + n mod 10)) - 48 = n mod 10.
Proof.
  intros Hn. pose proof (Z.mod_pos_bound n 10 ltac:(lia)) as Hm.
  split; [|lia]. unfold isDigit. apply andb_true_iff. split; apply N.leb_le; lia.
Qed.

Lemma digitsOf_spec (fuel : nat) (n : Z) (acc : jsstring) :
  0 <= n < 10 ^ Z.of_nat fuel -> (0 < fuel)%nat ->
  exists ds, digitsOf fuel n acc = ds ++ acc /\ ds <> [] /\
             forallb isDigit ds = true /\ digitsValue ds = n.
Proof.
  revert n acc. induction fuel as [|fuel IH]; intros n acc Hn Hf; [lia|].
  destruct (digit_of_mod n ltac:(lia)) as [Hd Hv]. cbn [digitsOf].
  destruct (Z.ltb_spec n 10) as [Hlt|Hge].
  - exists [Z.to_N (48 + n mod 10)]. split; [done|]. split; [done|].
    split; [by cbn; rewrite Hd|].
    unfold digitsValue. cbn. rewrite Hv. rewrite Z.mod_small; lia.
  - assert (0 < fuel)%nat as Hf'.
    { destruct fuel; [|lia]. change (10 ^ Z.of_nat 1) with 10 in Hn. lia. }
    assert (0 <= n / 10 < 10 ^ Z.of_nat fuel) as Hdiv.
    { split; [apply Z.div_pos; lia|]. apply Z.div_lt_upper_bound; [lia|].
      rewrite Nat2Z.inj_succ, Z.pow_succ_r in Hn; lia. }
    destruct (IH (n / 10) (Z.to_N (48 + n mod 10) :: acc) Hdiv Hf')
      as (ds & -> & Hne & Hall & Hval).
    exists (ds ++ [Z.to_N (48 + n mod 10)]).
    split; [by rewrite <- app_assoc|].
    split; [by destruct ds|].
    split; [by rewrite forallb_app, Hall; cbn; rewrite Hd|].
    rewrite digitsValue_snoc, Hval, Hv. symmetry. apply Z.div_mod. lia.
Qed.

Lemma decimal_spec (n : Z) :
  exists ds, ds <> [] /\ forallb isDigit ds = true /\
             digitsValue ds = Z.abs n /\
             decimal n = if n <? 0 then minus :: ds else ds.
Proof.
  unfold decimal.
  destruct (digitsOf_spec (S (Z.to_nat (Z.log2 (Z.abs n)))) (Z.abs n) [])
    as (ds & E & Hne & Hall & Hval).
  - split; [lia|]. rewrite Nat2Z.inj_succ, Z2Nat.id by apply Z.log2_nonneg.
    destruct (Z.eq_dec (Z.abs n) 0) as [->|Hnz]; [done|].
    pose proof (Z.log2_spec (Z.abs n) ltac:(lia)) as [_ Hlog].
    eapply Z.lt_le_trans; [exact Hlog|].
    apply Z.pow_le_mono_l. lia.
  - lia.
  - rewrite app_nil_r in E. exists ds. by rewrite E.
Qed.

Lemma isDigit_kept (ds : jsstring) :
  forallb isDigit ds = true -> List.filter kept ds = ds.
Proof.
  induction ds as [|d ds IH]; [done|]. cbn. intros [Hd Hall]%andb_true_iff.
  unfold kept at 1. rewrite Hd. cbn. by rewrite IH.
Qed.

Lemma padding_filter (pre s : jsstring) :
  padding pre -> List.filter kept (pre ++ s) = List.filter kept s.
Proof.
  unfold padding. induction pre as [|c pre IH]; [done|]. cbn.
  intros [[Hc _]%andb_true_iff Hp]%andb_true_iff.
  apply negb_true_iff in Hc. rewrite Hc. by apply IH.
Qed.

Lemma idOfPiece_decimal (pre : jsstring) (n : Z) :
  padding pre -> Z.abs n < 2 ^ 53 ->
  idOfPiece (pre ++ decimal n) = Some (Int n).
Proof.
  intros Hp Hn. unfold idOfPiece. rewrite (padding_filter _ _ Hp).
  destruct (decimal_spec n) as (ds & Hne & Hall & Hval & ->).
  assert (roundDouble (Z.abs n) = Some (Z.abs n)) as Hr.
  { unfold roundDouble. by rewrite (proj2 (Z.ltb_lt _ _) Hn). }
  destruct (Z.ltb_spec n 0) as [Hneg|Hpos].
  - cbn [List.filter]. change (kept minus) with true. cbn iota.
    rewrite (isDigit_kept _ Hall), Hall. change (isDigit minus) with false.
    cbn iota. destruct ds as [|d ds]; [done|].
    unfold signed. rewrite Hval, Hr. f_equal. f_equal. lia.
  - rewrite (isDigit_kept _ Hall). destruct ds as [|d ds]; [done|].
    cbn in Hall. apply andb_true_iff in Hall as [Hd Hall].
    rewrite Hall, Hd. unfold signed. rewrite Hval, Hr. f_equal. f_equal. lia.
Qed.

Lemma split_no_sep (sep : N) (a : jsstring) :
  forallb (fun c => negb (c =? sep)%N) a = true -> split sep a = [a].
Proof.
  induction a as [|c a IH]; [done|]. cbn.
  intros [Hc Ha]%andb_true_iff. apply negb_true_iff in Hc.
  by rewrite Hc, IH.
Qed.

Lemma split_at_sep (sep : N) (a b : jsstring) :
  forallb (fun c => negb (c =? sep)%N) a = true ->
  split sep (a ++ sep :: b) = a :: split sep b.
Proof.
  induction a as [|c a IH]; cbn.
  - intros _. by rewrite N.eqb_refl.
  - intros [Hc Ha]%andb_true_iff. apply negb_true_iff in Hc.
    by rewrite Hc, IH.
Qed.

Lemma decimal_no_comma (pre : jsstring) (n : Z) :
  padding pre ->
  forallb (fun c => negb (c =? comma)%N) (pre ++ decimal n) = true.
Proof.
  intros Hp. rewrite forallb_app. apply andb_true_iff. split.
  - unfold padding in Hp. rewrite forallb_forall in *. intros c Hc.
    by destruct (andb_prop _ _ (Hp c Hc)).
  - destruct (decimal_spec n) as (ds & _ & Hall & _ & ->).
    assert (forallb (fun c => negb (c =? comma)%N) ds = true) as Hds.
    { rewrite forallb_forall in *. intros c Hc. specialize (Hall c Hc).
      unfold isDigit, comma in *. apply andb_true_iff in Hall as [H1%N.leb_le _].
      apply negb_true_iff, N.eqb_neq. lia. }
    destruct (n <? 0); [|done]. cbn. done.
Qed.

Lemma padded_ids_parse (ids : list Z) (pre : jsstring) :
  Forall (fun n => Z.abs n < 2 ^ 53) ids -> padding pre ->
  omap idOfPiece (split comma (pre ++ joinIds ids)) = map Int ids.
Proof.
  intros Hids. revert pre. induction Hids as [|n ids Hn Hids IH]; intros pre Hp.
  - cbn [joinIds]. rewrite app_nil_r, split_no_sep.
    + cbn. unfold idOfPiece.
      rewrite <- (app_nil_r pre), (padding_filter _ _ Hp). done.
    + unfold padding in Hp. rewrite forallb_forall in *. intros c Hc.
      by destruct (andb_prop _ _ (Hp c Hc)).
  - destruct ids as [|m ids].
    + cbn [joinIds]. rewrite split_no_sep by by apply decimal_no_comma.
      cbn. by rewrite idOfPiece_decimal.
    + change (joinIds (n :: m :: ids))
        with (decimal n ++ comma :: ([32%N] ++ joinIds (m :: ids))).
      rewrite app_assoc, split_at_sep by by apply decimal_no_comma.
      cbn [omap list_omap]. rewrite idOfPiece_decimal by done.
      cbn [map]. f_equal. by apply IH.
Qed.

(** X8. The IDs the token panel shows parse back: for every list of integer
    IDs of magnitude below [2^53], the decode-mode parser applied to their
    decimal renderings separated by [", "] yields exactly those IDs, in
    order. *)
Theorem shown_ids_parse_back (ids : list Z) :
  Forall (fun n => Z.abs n < 2 ^ 53) ids ->
  parseIds (joinIds ids) = map Int ids.
Proof.
  intros H. rewrite parseIds_omap. by apply (padded_ids_parse ids []).
Qed.

Lemma shown_ids_parse_back_witness :
  parseIds (joinIds [101; 7592; -3; 0; 102])
  = [Int 101; Int 7592; Int (-3); Int 0; Int 102].
Proof.
  apply (shown_ids_parse_back [101; 7592; -3; 0; 102]).
  repeat constructor.
Defined.

(* ================================================================= *)
(** ** Events that leave the request pipeline alone *)

Lemma commit_same_deps (prev : State) (w : World) :
  depsSync (app w) = depsSync prev ->
  depsDebounce (app w) = depsDebounce prev -> commit prev w = w.
Proof.
  intros H1 H2. unfold commit. by rewrite !bool_decide_eq_true_2.
Qed.

Lemma quiet_update (s' : State) (l : list ElementId) (w : World) :
  text s' = text (app w) -> modelId s' = modelId (app w) ->
  mode s' = mode (app w) -> status s' = status (app w) ->
  tokens s' = tokens (app w) -> visualizedText s' = visualizedText (app w) ->
  pipeline (commit (app w) (withScrolled l (withApp s' w))) = pipeline w.
Proof.
  intros E1 E2 E3 E4 E5 E6. rewrite commit_same_deps.
  - unfold pipeline. simpl. by rewrite E1, E2, E3, E4, E5, E6.
  - unfold depsSync. simpl. by rewrite E1, E3.
  - unfold depsDebounce. simpl. by rewrite E1, E2, E3, E4.
Qed.

Lemma quiet_handle (f : State -> State) (w : World) :
  text (f (app w)) = text (app w) -> modelId (f (app w)) = modelId (app w) ->
  mode (f (app w)) = mode (app w) -> status (f (app w)) = status (app w) ->
  tokens (f (app w)) = tokens (app w) ->
  visualizedText (f (app w)) = visualizedText (app w) ->
  pipeline (handle f w) = pipeline w.
Proof.
  intros E1 E2 E3 E4 E5 E6. unfold handle. rewrite commit_same_deps.
  - unfold pipeline. simpl. by rewrite E1, E2, E3, E4, E5, E6.
  - unfold depsSync. simpl. by rewrite E1, E3.
  - unfold depsDebounce. simpl. by rewrite E1, E2, E3, E4.
Qed.

(** X9. Hovering and clicking never touch the request pipeline: a pointer
    event in either panel or on the background leaves the raw input, model,
    mode, status, token list and visualized text as they were, sends nothing,
    and neither sets nor cancels a timer. *)
Theorem interaction_leaves_pipeline (w w' : World) (e : Event) :
  interaction e = true -> step w e = Normal w' -> pipeline w' = pipeline w.
Proof.
  destruct e; try discriminate; intros _; cbn [step];
    try (intros [= <-]; by apply quiet_handle).
  - intros [= <-]. apply quiet_handle; unfold handleCharEnter;
      by destruct (resolve _ _).
  - destruct (onTokenClick_normal index (app w))
      as (s' & l & -> & E1 & E2 & E3 & E4 & E5 & E6).
    simpl. intros [= <-]. by apply quiet_update.
  - pose proof (onCharClick_frame index (app w)) as Hfr. cbv zeta in Hfr.
    destruct (onCharClick index (app w)) as [s' l]. simpl in Hfr.
    destruct Hfr as (E1 & E2 & E3 & E4 & E5 & E6). intros [= <-].
    by apply quiet_update.
Qed.

Lemma interaction_leaves_pipeline_witness :
  pipeline (handle (handleCharEnter 0) one_in_flight) = pipeline one_in_flight.
Proof.
  apply (interaction_leaves_pipeline one_in_flight _ (CharEnter 0)).
  - reflexivity.
  - reflexivity.
Defined.

(* ================================================================= *)
(** ** Empty and blank inputs *)

Lemma processInput_text (m : jsstring) (md : Mode) (v : jsstring) (s : State) :
  text (fst (processInput m md v s)) = text s.
Proof.
  unfold processInput. destruct (truthy v); simpl; [|done].
  destruct md; [done|]. by destruct (_ && _).
Qed.

Lemma fire_text (t : Timer) (w : World) : text (app (fire t w)) = text (app w).
Proof.
  unfold fire.
  pose proof (processInput_text (cb_modelId t) (cb_mode t) (cb_text t) (app w))
    as Ht.
  destruct (processInput _ _ _ _) as [s' req]. simpl in Ht.
  pose proof (commit_frame (app w)) as Hfr. cbv zeta in Hfr.
  match goal with |- text (app (commit _ ?x)) = _ =>
    destruct (Hfr x) as (-> & _) end.
  done.
Qed.

Lemma tick_empty (w : World) :
  wf w -> text (app w) = [] ->
  calls (tick w) = calls w /\ text (app (tick w)) = [].
Proof.
  intros [_ Ht Hl _ _] He. unfold tick.
  destruct (timers w) as [|t [|? ?]] eqn:Hts; simpl in Hl; [done| |lia].
  cbn [length timers fireDue List.find clock].
  destruct (due t <=? S (clock w))%nat; [|done].
  destruct (Ht t (or_introl eq_refl)) as (_ & Hcur & _).
  rewrite fire_text, fire_calls by done. simpl.
  rewrite requestFor_cases, He. by rewrite app_nil_r.
Qed.

Lemma elapse_empty (d : nat) (w : World) :
  wf w -> text (app w) = [] ->
  calls (elapse d w) = calls w /\ text (app (elapse d w)) = [].
Proof.
  revert w. induction d as [|d IH]; intros w Hw He; [done|]. simpl.
  destruct (tick_empty w Hw He) as [Hc Ht].
  destruct (IH (tick w) (tick_wf w Hw) Ht) as [Hc' Ht'].
  split; [congruence|done].
Qed.

(** X10. While the raw input is empty nothing is ever sent, however long one
    waits; in particular switching the mode, which empties the input, never
    sends a request by itself. *)
Theorem empty_input_never_sends (w : World) (d : nat) :
  reachable w ->
  (text (app w) = [] ->
   calls (elapse d w) = calls w /\ text (app (elapse d w)) = []) /\
  (forall m, calls (elapse d (change (ChangeMode m) w)) = calls w).
Proof.
  intros Hw%reachable_wf. split; [by apply elapse_empty|].
  intros m. destruct (elapse_empty d (change (ChangeMode m) w)) as [-> _].
  - by apply change_wf.
  - simpl. unfold handle.
    pose proof (commit_frame (app w)) as Hfr. cbv zeta in Hfr.
    match goal with |- text (app (commit _ ?x)) = _ =>
      destruct (Hfr x) as (-> & _) end. done.
  - simpl. unfold handle.
    pose proof (commit_frame (app w)) as Hfr. cbv zeta in Hfr.
    match goal with |- calls (commit _ ?x) = _ =>
      destruct (Hfr x) as (_&_&_&_&_&_&_&_&_&_&->&_) end. done.
Qed.

Lemma empty_input_never_sends_witness :
  calls (elapse 3000 (change (ChangeMode decode) two_in_flight))
  = calls two_in_flight.
Proof.
  destruct (empty_input_never_sends two_in_flight 3000) as [_ H].
  - apply two_in_flight_reachable.
  - exact (H decode).
Defined.

Lemma trimStart_nil (s : jsstring) :
  trimStart s = [] -> forallb isWhiteSpace s = true.
Proof.
  induction s as [|c s IH]; [done|]. cbn.
  destruct (isWhiteSpace c); [exact IH|discriminate].
Qed.

Lemma trimStart_head (s : jsstring) (c : N) (r : jsstring) :
  trimStart s = c :: r -> isWhiteSpace c = false.
Proof.
  induction s as [|d s IH]; [done|]. cbn.
  destruct (isWhiteSpace d) eqn:Hd; [exact IH|]. by intros [= <- _].
Qed.

Lemma trim_nil (s : jsstring) : trim s = [] -> forallb isWhiteSpace s = true.
Proof.
  unfold trim, trimEnd. intros H. apply trimStart_nil.
  destruct (trimStart s) as [|c r] eqn:Hs; [done|].
  apply trimStart_head in Hs.
  assert (trimStart (rev (c :: r)) = []) as Hr.
  { destruct (trimStart (rev (c :: r))); [done|].
    apply (f_equal (@length N)) in H. rewrite length_rev in H. done. }
  apply trimStart_nil in Hr. rewrite forallb_forall in Hr.
  specialize (Hr c). rewrite Hr in Hs; [done|]. apply in_rev.
  rewrite rev_involutive. by left.
Qed.

Lemma split_chars (sep : N) (s p : jsstring) (c : N) :
  In p (split sep s) -> In c p -> In c s.
Proof.
  revert p. induction s as [|d s IH]; intros p; cbn.
  - by intros [<-|[]].
  - destruct (d =? sep)%N.
    + intros [<-|Hp]; [done|]. right. by eapply IH.
    + destruct (split sep s) as [|q qs] eqn:Hq.
      * intros [<-|[]] [->|[]]. by left.
      * intros [<-|Hp] Hc.
        -- destruct Hc as [->|Hc]; [by left|]. right. apply (IH q); [by left|done].
        -- right. apply (IH p); [by right|done].
Qed.

Lemma blank_has_no_ids (v : jsstring) :
  forallb isWhiteSpace v = true -> parseIds v = [].
Proof.
  intros Hv. rewrite parseIds_omap.
  assert (forall p, In p (split comma v) -> idOfPiece p = None) as Hp.
  { intros p Hin. unfold idOfPiece.
    destruct (List.filter kept p) as [|c rest] eqn:Hk; [done|].
    assert (In c (List.filter kept p)) as [Hc Hkept]%filter_In
      by (rewrite Hk; by left).
    apply kept_not_whitespace in Hkept. rewrite forallb_forall in Hv.
    rewrite (Hv c) in Hkept; [done|]. by eapply split_chars. }
  induction (split comma v) as [|p ps IH]; [done|]. cbn.
  rewrite (Hp p) by by left. apply IH. intros q Hq. apply Hp. by right.
Qed.

(** X11. In decode mode an input that is not empty but blank (white space
    only) is not ignored: it is sent to [/api/decode] with an empty ID list,
    and the state is left as it was. *)
Theorem blank_decode_input_sends_no_ids
    (modelId_ v : jsstring) (s : State) :
  v <> [] -> trim v = [] ->
  processInput modelId_ decode v s
  = (s, Some {| url := api_decode; body := IdsBody [] modelId_ |}).
Proof.
  intros Hne Ht. unfold processInput.
  rewrite (blank_has_no_ids v (trim_nil v Ht)), Ht.
  by destruct v.
Qed.

Lemma blank_decode_input_sends_no_ids_witness :
  processInput (lit "gpt2") decode (lit "   ") initial
  = (initial, Some {| url := api_decode; body := IdsBody [] (lit "gpt2") |}).
Proof.
  apply (blank_decode_input_sends_no_ids (lit "gpt2") (lit "   ") initial).
  - discriminate.
  - reflexivity.
Defined.

(* ================================================================= *)
(** ** Timers: invariants, retries, mode and model changes *)

(** X12. At any moment at most one debounce timer is pending; it closed over
    the raw input, model and mode the component holds now, and it is due
    within the next 500 ms. *)
Theorem one_timer_with_current_inputs (w : World) :
  reachable w ->
  (length (timers w) <= 1)%nat /\
  (forall t, In t (timers w) ->
     current t (app w) /\ (clock w < due t <= clock w + 500)%nat).
Proof.
  intros [_ Ht Hl _ _]%reachable_wf. split; [done|].
  intros t Hin. by destruct (Ht t Hin) as (_ & ? & ?).
Qed.

Lemma one_timer_with_current_inputs_witness :
  (length (timers cleared_input) <= 1)%nat /\
  (forall t, In t (timers cleared_input) ->
     current t (app cleared_input) /\
     (clock cleared_input < due t <= clock cleared_input + 500)%nat).
Proof.
  apply (one_timer_with_current_inputs cleared_input).
  apply cleared_input_reachable.
Defined.

Lemma requestFor_inputs (s s' : State) :
  text s' = text s -> modelId s' = modelId s -> mode s' = mode s ->
  requestFor s' = requestFor s.
Proof. intros E1 E2 E3. by rewrite !requestFor_cases, E1, E2, E3. Qed.

Lemma rearmed (prev : State) (x : World) :
  ownTimers x -> depsDebounce (app x) <> depsDebounce prev ->
  is_Some (status (app x)) ->
  calls (elapse 500 (commit prev x)) = calls x ++ requestFor (app x) /\
  exists t, timers (commit prev x) = [t] /\ due t = (clock x + 500)%nat /\
            current t (app (commit prev x)).
Proof.
  intros Hpre Hd Hs.
  pose proof (commit_alters prev x Hd Hs Hpre) as Hts.
  pose proof (commit_frame prev x) as Hfr. cbv zeta in Hfr.
  destruct Hfr as (E1 & E2 & E3 & _ & _ & _ & _ & _ & E5 & _ & E7 & _).
  set (t := {| timer_id := next_timer x; due := clock x + 500;
               cb_text := text (app x); cb_modelId := modelId (app x);
               cb_mode := mode (app x) |}) in *.
  assert (current t (app (commit prev x))) as Hcur
    by (unfold current; by rewrite E1, E2, E3).
  split; [|by exists t].
  rewrite (elapse_fire 499 t) by (rewrite ?E5; simpl; done || lia).
  rewrite fire_calls by done. unfold advance. cbn [calls app].
  rewrite E7. f_equal. by apply requestFor_inputs.
Qed.

(** X13. A failed request is retried once without any input: when a request
    fails while the status is of kind ready, the failure itself re-arms the
    debounce timer, and 500 ms later [processInput] runs again on the current
    inputs and sends what they call for. When the status is already of kind
    error, a further failure sets no timer. *)
Theorem failed_request_is_retried_once
    (w : World) (p : Pending) (r : Response) (st : Status) :
  reachable w -> In p (inflight w) -> (forall data, r <> Ok data) ->
  status (app w) = Some st ->
  let w1 := settle (req_id p) r w in
  (kind st = ready ->
     (exists t, timers w1 = [t] /\ due t = (clock w + 500)%nat /\
                current t (app w1)) /\
     calls (elapse 500 w1) = calls w ++ requestFor (app w)) /\
  (kind st = error -> timers w1 = timers w /\ cleanup w1 = cleanup w).
Proof.
  intros Hw%reachable_wf Hin Hr Hst. cbv zeta. unfold settle.
  destruct (find_some_pending p _ Hin) as [q ->].
  set (s' := processInput_settled (req_mode q) r (app w)).
  assert (text s' = text (app w) /\ modelId s' = modelId (app w) /\
          mode s' = mode (app w) /\
          exists msg, status s' = Some {| kind := error; message := msg |})
    as (E1 & E2 & E3 & msg & E4).
  { unfold s'. destruct r as [d|d|m]; [by destruct (Hr d)| |]; simpl; eauto. }
  split.
  - intros Hk.
    match goal with |- context [commit _ ?x] =>
      destruct (rearmed (app w) x) as [Hc Ht] end.
    + intros t Ht. simpl in Ht. by destruct (wf_timers w Hw t Ht).
    + unfold depsDebounce. cbn [app]. fold s'. rewrite E4, Hst. cbn.
      rewrite Hk. intros [=].
    + simpl. by rewrite E4.
    + split; [exact Ht|]. rewrite Hc. simpl. f_equal.
      by apply requestFor_inputs.
  - intros Hk. rewrite commit_same_deps; [done| |].
    + unfold depsSync. cbn [app]. fold s'. by rewrite E1, E3.
    + unfold depsDebounce. cbn [app]. fold s'.
      rewrite E1, E2, E3, E4, Hst. cbn. by rewrite Hk.
Qed.

Lemma failed_request_is_retried_once_witness :
  calls (elapse 500 (settle 0 (Rejected (lit "Failed to fetch")) one_in_flight))
  = calls one_in_flight ++ requestFor (app one_in_flight).
Proof.
  destruct (failed_request_is_retried_once one_in_flight pendingHello
              (Rejected (lit "Failed to fetch"))
              {| kind := ready;
                 message := modelSetMessage (lit "Qwen/Qwen3-0.6B") tokenize |})
    as [H _].
  - unfold one_in_flight.
    eapply reachable_step with (e := Elapse 500); [|reflexivity].
    eapply reachable_step with (e := Input _); [|reflexivity].
    apply reachable_mount.
  - vm_compute. left. reflexivity.
  - discriminate.
  - vm_compute. reflexivity.
  - apply H. reflexivity.
Defined.

(** X14. Switching the mode resets the component whatever it held: the
    token list, the raw input and the visualized text are emptied, the mode
    is the new one and the status is ready with the message naming the
    current model and the new mode. The hovered and active indices are not
    reset. *)
Theorem mode_switch_resets (w : World) (m : Mode) :
  let s := app w in
  let s' := app (change (ChangeMode m) w) in
  tokens s' = [] /\ text s' = [] /\ visualizedText s' = Some [] /\
  mode s' = m /\ modelId s' = modelId s /\
  status s' = Some {| kind := ready; message := modelSetMessage (modelId s) m |} /\
  hoveredTokenIndex s' = hoveredTokenIndex s /\
  activeTokenIndex s' = activeTokenIndex s /\
  calls (change (ChangeMode m) w) = calls w.
Proof.
  cbv zeta. simpl. unfold handle.
  pose proof (commit_frame (app w)) as Hfr. cbv zeta in Hfr.
  match goal with |- context [commit _ ?x] =>
    destruct (Hfr x) as (-> & -> & -> & -> & -> & -> & _ & -> & _ & _ & -> & _);
    rewrite (commit_visualizedText (app w) x) end.
  simpl. repeat (split; [done|]). split; [|done].
  destruct (bool_decide _); [done|]. by destruct m.
Qed.

(** X15. Changing only the model identifier leaves the status, with its
    message naming the old model, and the tokens as they were; when the
    identifier differs from the current one, the raw input as it stands is
    submitted to the new model 500 ms later. *)
Theorem model_change_resubmits (w : World) (v : jsstring) :
  reachable w -> v <> modelId (app w) ->
  let w1 := change (ChangeModelId v) w in
  status (app w1) = status (app w) /\ tokens (app w1) = tokens (app w) /\
  text (app w1) = text (app w) /\ modelId (app w1) = v /\
  calls (elapse 500 w1) = calls w ++ requestFor (setModelId v (app w)).
Proof.
  intros Hw%reachable_wf Hv. cbv zeta.
  change (change (ChangeModelId v) w)
    with (commit (app w) (withApp (setModelId v (app w)) w)).
  set (x := withApp (setModelId v (app w)) w).
  destruct (rearmed (app w) x) as [Hc _].
  - intros t Ht. by destruct (wf_timers w Hw t Ht).
  - unfold depsDebounce, x. cbn [app withApp modelId setModelId]. congruence.
  - by destruct Hw.
  - pose proof (commit_frame (app w) x) as Hfr. cbv zeta in Hfr.
    destruct Hfr as (-> & -> & _ & -> & -> & _).
    by rewrite Hc.
Qed.

Lemma model_change_resubmits_witness :
  calls (elapse 500 (change (ChangeModelId (lit "gpt2")) one_in_flight))
  = calls one_in_flight
    ++ [ {| url := api_tokenize; body := TextBody (lit "Hello") (lit "gpt2") |} ].
Proof.
  destruct (model_change_resubmits one_in_flight (lit "gpt2"))
    as (_ & _ & _ & _ & H).
  - unfold one_in_flight.
    eapply reachable_step with (e := Elapse 500); [|reflexivity].
    eapply reachable_step with (e := Input _); [|reflexivity].
    apply reachable_mount.
  - vm_compute. discriminate.
  - rewrite H. vm_compute. reflexivity.
Defined.

Lemma noLateDecodeb_sound (w : World) (es : list Event) :
  noLateDecodeb w es = true -> noLateDecode w es.
Proof.
  revert w. induction es as [|e es IH]; intros w; [done|].
  cbn [noLateDecodeb noLateDecode]. intros [He Hes]%andb_true_iff. split.
  - destruct e as [| | | | | | | | | |k [d|d|m]]; try done.
    cbn [notLateDecode]. intros p Hp. rewrite Hp in He.
    by apply bool_decide_eq_true in He.
  - destruct (step w e); [by apply IH|done].
Qed.

(** X16. From the mounted component, every run of events in which no
    successful response to a decode-mode request arrives leaves the
    visualized text equal to the raw input whenever the mode is tokenize. *)
Theorem tokenize_view_mirrors_input (es : list Event) (w : World) :
  noLateDecodeb (mount boot) es = true -> run (mount boot) es = Normal w ->
  mode (app w) = tokenize -> visualizedText (app w) = Some (text (app w)).
Proof.
  intros Hes%noLateDecodeb_sound Hrun.
  apply (synced_unless_late_decode (mount boot) es w);
    [apply reachable_mount|apply mount_synced|done|done].
Qed.

Lemma tokenize_view_mirrors_input_witness :
  exists w, run (mount boot) tokenize_trace = Normal w /\
            visualizedText (app w) = Some (text (app w)).
Proof.
  eexists. split; [vm_compute; reflexivity|].
  apply (tokenize_view_mirrors_input tokenize_trace).
  - vm_compute. reflexivity.
  - vm_compute. reflexivity.
  - reflexivity.
Defined.

(** X17. A successful response replaces the token list and, when its
    request was sent in decode mode, the visualized text; a response to a
    request sent in tokenize mode leaves the visualized text as it was. The
    status is left as it was, so an error message of an earlier failure stays
    on screen after a later success; no timer is set or cancelled and nothing
    is sent. The hovered and active indices are kept, whatever the length of
    the new list. *)
Theorem success_keeps_status (w : World) (p : Pending) (data : Data) :
  In p (inflight w) ->
  let w1 := settle (req_id p) (Ok data) w in
  tokens (app w1) = data_tokens data /\
  status (app w1) = status (app w) /\
  timers w1 = timers w /\ calls w1 = calls w /\
  hoveredTokenIndex (app w1) = hoveredTokenIndex (app w) /\
  activeTokenIndex (app w1) = activeTokenIndex (app w) /\
  ~ In p (inflight w1) /\
  text (app w1) = text (app w) /\ mode (app w1) = mode (app w) /\
  modelId (app w1) = modelId (app w) /\
  (reachable w ->
   visualizedText (app w1)
   = match req_mode p with
     | decode => data_text data
     | tokenize => visualizedText (app w)
     end).
Proof.
  intros Hin. cbv zeta.
  assert (forall q, List.find (fun q => (req_id q =? req_id p)%nat) (inflight w)
                    = Some q ->
            settle (req_id p) (Ok data) w
            = {| app := processInput_settled (req_mode q) (Ok data) (app w);
                 clock := clock w; timers := timers w; cleanup := cleanup w;
                 next_timer := next_timer w;
                 inflight :=
                   List.filter (fun q => negb (req_id q =? req_id p)%nat)
                     (inflight w);
                 calls := calls w; scrolled := scrolled w |}) as Hs.
  { intros q Hq. unfold settle. rewrite Hq. apply commit_same_deps.
    - unfold depsSync. simpl. by destruct (req_mode q).
    - unfold depsDebounce. simpl. by destruct (req_mode q). }
  destruct (find_some_pending p _ Hin) as [q Hq]. rewrite (Hs q Hq). simpl.
  repeat (split; [by destruct (req_mode q)|]).
  split; [|repeat (split; [by destruct (req_mode q)|])].
  - intros [_ Hp]%filter_In. by rewrite Nat.eqb_refl in Hp.
  - intros Hw%reachable_wf.
    rewrite (find_pending p _ (wf_ids w Hw) Hin) in Hq. injection Hq as <-.
    by destruct (req_mode p).
Qed.

Lemma success_keeps_status_witness :
  tokens (app (settle 1 (Ok worldData) two_decodes_in_flight)) = [tokA; tokB] /\
  status (app (settle 1 (Ok worldData) two_decodes_in_flight))
  = status (app two_decodes_in_flight) /\
  visualizedText (app (settle 1 (Ok worldData) two_decodes_in_flight))
  = Some (lit "hello world").
Proof.
  destruct (success_keeps_status two_decodes_in_flight pendingD1 worldData)
    as (H1 & H2 & _ & _ & _ & _ & _ & _ & _ & _ & H3).
  - vm_compute. right. left. reflexivity.
  - split; [exact H1|]. split; [exact H2|].
    apply H3. apply two_decodes_in_flight_reachable.
Defined.
